(** * Retrieval core of the FAQ chatbot (faq-chatbot-rag/app.py)

    A shallow embedding of [chunk_text], [build_index], [retrieve] and of the
    top-level script that calls them, together with the properties of the
    design document that concern them.

    Python values are modelled as follows.
    - [str] is a sequence of Unicode code points ([list N]); [str.strip],
      [str.replace("\r", "")], [str.split("\n\n")] and slicing are written
      out on that representation.
    - [int] is [Z]; slice bounds follow Python's rules for negative and
      out-of-range indices.
    - A call either returns, raises, or (for the [while] loop of
      [chunk_text]) exhausts the fuel given to the model: [result].
    - The embedding model and the vector index are library objects; the
      functions that use them take them as parameters. *)

From Stdlib Require Import List ZArith NArith Lia Bool String Ascii.
Import ListNotations.

Local Open Scope Z_scope.

(** ** Python strings *)

Definition char := N.
Definition str := list char.

Definition LF : char := 10%N.
Definition CR : char := 13%N.

(** [str_of] reads a literal; it is only used to write examples. *)
Definition str_of (s : string) : str :=
  List.map N_of_ascii (list_ascii_of_string s).

Definition len {A : Type} (s : list A) : Z := Z.of_nat (List.length s).

(** [str.isspace] on one code point (the table of CPython's
    [_PyUnicode_IsWhitespace]). *)
Definition is_space (c : char) : bool :=
  (((9 <=? c) && (c <=? 13)) || ((28 <=? c) && (c <=? 32))
   || (c =? 133) || (c =? 160) || (c =? 5760)
   || ((8192 <=? c) && (c <=? 8202))
   || (c =? 8232) || (c =? 8233) || (c =? 8239) || (c =? 8287)
   || (c =? 12288))%N.

Fixpoint lstrip (s : str) : str :=
  match s with
  | [] => []
  | c :: s' => if is_space c then lstrip s' else s
  end.

Definition rstrip (s : str) : str := rev (lstrip (rev s)).

(** [s.strip()] *)
Definition strip (s : str) : str := rstrip (lstrip s).

(** [s.replace("\r", "")] *)
Definition remove_cr (s : str) : str :=
  filter (fun c => negb (c =? CR)%N) s.

(** Truthiness of a sequence: [if s:] *)
Definition truthy {A : Type} (s : list A) : bool :=
  match s with [] => false | _ :: _ => true end.

(** Normalisation of one slice bound against a length [n]:
    negative bounds count from the end, and the result is clamped
    to [0 .. n]. *)
Definition slice_bound (i n : Z) : Z :=
  if i <? 0 then Z.max 0 (i + n) else Z.min i n.

(** [s[i:j]] *)
Definition py_slice {A : Type} (s : list A) (i j : Z) : list A :=
  let lo := slice_bound i (len s) in
  let hi := slice_bound j (len s) in
  firstn (Z.to_nat (hi - lo)) (skipn (Z.to_nat lo) s).

(** ** Outcomes of a call *)

Inductive exn : Type := PyExn (cls : string).

Definition AttributeError : exn := PyExn "AttributeError".
Definition IndexError : exn := PyExn "IndexError".

(** The error kinds named by the design document.  No statement of
    app.py raises them; they are here so that the properties which mention
    them can be written down. *)
Definition InvalidConfiguration : exn := PyExn "InvalidConfiguration".
Definition EmptyCorpus : exn := PyExn "EmptyCorpus".

Inductive result (A : Type) : Type :=
| Returned (a : A)
| Raised (e : exn)
| OutOfFuel.

Arguments Returned {A} a.
Arguments Raised {A} e.
Arguments OutOfFuel {A}.

Definition bind {A B : Type} (r : result A) (k : A -> result B) : result B :=
  match r with
  | Returned a => k a
  | Raised e => Raised e
  | OutOfFuel => OutOfFuel
  end.

Notation "x <- r ;; k" := (bind r (fun x => k))
  (at level 61, r at next level, right associativity).

(** ** chunk_text *)

(** One pass through the body of [while start < n:].  [Break] is the
    [break] at [end == n]; [Continue] carries the next value of [start]. *)
Inductive step : Type :=
| Break (chunks : list str)
| Continue (start : Z) (chunks : list str).

Definition loop_body (text : str) (max_chars overlap : Z)
           (start : Z) (chunks : list str) : step :=
  let n := len text in
  let end_ := Z.min (start + max_chars) n in
  let chunk := strip (py_slice text start end_) in
  let chunks := if truthy chunk then chunks ++ [chunk] else chunks in
  if end_ =? n then Break chunks
  else
    let start := end_ - overlap in
    let start := if start <? 0 then 0 else start in
    Continue start chunks.

Fixpoint chunk_loop (fuel : nat) (text : str) (max_chars overlap : Z)
         (start : Z) (chunks : list str) : result (list str) :=
  match fuel with
  | O => OutOfFuel
  | S fuel' =>
      if start <? len text then
        match loop_body text max_chars overlap start chunks with
        | Break chunks' => Returned chunks'
        | Continue start' chunks' =>
            chunk_loop fuel' text max_chars overlap start' chunks'
        end
      else Returned chunks
  end.

(** [text.strip().replace("\r", "")], the text the loop scans. *)
Definition normalize (text : str) : str := remove_cr (strip text).

Definition chunk_text (fuel : nat) (text : str) (max_chars overlap : Z)
  : result (list str) :=
  let text := normalize text in
  if negb (truthy text) then Returned []
  else chunk_loop fuel text max_chars overlap 0 [].

(** The windows [text[start:end]] that the loop of [chunk_text] visits,
    before [.strip()] and before the [if chunk:] test.  The source does not
    keep them; they are recorded here by running the same loop with the same
    bounds, to state what the chunks are cut from. *)
Definition window_body (text : str) (max_chars overlap : Z)
           (start : Z) (windows : list str) : step :=
  let n := len text in
  let end_ := Z.min (start + max_chars) n in
  let windows := windows ++ [py_slice text start end_] in
  if end_ =? n then Break windows
  else
    let start := end_ - overlap in
    let start := if start <? 0 then 0 else start in
    Continue start windows.

Fixpoint window_loop (fuel : nat) (text : str) (max_chars overlap : Z)
         (start : Z) (windows : list str) : result (list str) :=
  match fuel with
  | O => OutOfFuel
  | S fuel' =>
      if start <? len text then
        match window_body text max_chars overlap start windows with
        | Break windows' => Returned windows'
        | Continue start' windows' =>
            window_loop fuel' text max_chars overlap start' windows'
        end
      else Returned windows
  end.

Definition chunk_windows (fuel : nat) (text : str) (max_chars overlap : Z)
  : result (list str) :=
  let text := normalize text in
  if negb (truthy text) then Returned []
  else window_loop fuel text max_chars overlap 0 [].

(** What [chunk_text] does to the windows: strip each, keep the non-empty. *)
Definition clean (windows : list str) : list str :=
  filter truthy (List.map strip windows).

(** Concatenation of the non-overlapping portions of consecutive pieces:
    the first piece whole, every later piece without its first [overlap]
    characters. *)
Definition reassemble (overlap : Z) (pieces : list str) : str :=
  match pieces with
  | [] => []
  | p :: rest => p ++ List.concat (List.map (skipn (Z.to_nat overlap)) rest)
  end.

(** The precondition of the design document on the chunking parameters. *)
Definition valid_config (max_chars overlap : Z) : Prop :=
  max_chars > overlap /\ overlap >= 0.

(** A chunk as the design document wants it. *)
Definition no_outer_space (s : str) : Prop :=
  (forall c, hd_error s = Some c -> is_space c = false) /\
  (forall c, hd_error (rev s) = Some c -> is_space c = false).

(** What the design document asks of every element of the result. *)
Definition chunk_ok (max_chars : Z) (c : str) : Prop :=
  c <> [] /\ no_outer_space c /\ len c <= max_chars.

(** ** build_index: collecting the chunks *)

Definition cons_head {A : Type} (c : A) (parts : list (list A))
  : list (list A) :=
  match parts with
  | [] => [[c]]
  | p :: ps => (c :: p) :: ps
  end.

(** [raw.split("\n\n")]: cut at every occurrence of two line feeds, scanning
    from the left, occurrences not overlapping. *)
Fixpoint split_blank (s : str) : list str :=
  match s with
  | [] => [[]]
  | c :: tl =>
      match tl with
      | [] => [[c]]
      | c2 :: rest =>
          if ((c =? LF) && (c2 =? LF))%N then [] :: split_blank rest
          else cons_head c (split_blank tl)
      end
  end.

(** [[p for p in raw.split("\n\n") if p.strip()]] *)
Definition rough_parts (raw : str) : list str :=
  filter (fun p => truthy (strip p)) (split_blank raw).

(** [for part in rough_parts: all_chunks.extend(chunk_text(part, 900, 120))] *)
Fixpoint extend_parts (fuel : nat) (parts : list str) (all_chunks : list str)
  : result (list str) :=
  match parts with
  | [] => Returned all_chunks
  | part :: parts' =>
      cs <- chunk_text fuel part 900 120 ;;
      extend_parts fuel parts' (all_chunks ++ cs)
  end.

(** A page is what [page.extract_text()] gave: a string or [None]. *)
Definition page := option str.

(** [raw = page.extract_text() or ""] *)
Definition raw_text (p : page) : str :=
  match p with
  | Some s => if truthy s then s else []
  | None => []
  end.

Definition add_page (fuel : nat) (p : page) (all_chunks : list str)
  : result (list str) :=
  extend_parts fuel (rough_parts (raw_text p)) all_chunks.

(** [for page in reader.pages: ...] *)
Fixpoint add_pages (fuel : nat) (pages : list page) (all_chunks : list str)
  : result (list str) :=
  match pages with
  | [] => Returned all_chunks
  | p :: pages' =>
      all_chunks' <- add_page fuel p all_chunks ;;
      add_pages fuel pages' all_chunks'
  end.

(** An uploaded file, seen through [PdfReader]: its pages in order. *)
Definition file := list page.

(** [for f in files: ...] *)
Fixpoint add_files (fuel : nat) (files : list file) (all_chunks : list str)
  : result (list str) :=
  match files with
  | [] => Returned all_chunks
  | f :: files' =>
      all_chunks' <- add_pages fuel f all_chunks ;;
      add_files fuel files' all_chunks'
  end.

(** [l[i]] for an integer index, negative indices counting from the end. *)
Definition py_index {A : Type} (l : list A) (i : Z) : result A :=
  let j := if i <? 0 then i + len l else i in
  if (0 <=? j) && (j <? len l) then
    match nth_error l (Z.to_nat j) with
    | Some x => Returned x
    | None => Raised IndexError
    end
  else Raised IndexError.

Fixpoint map_result {A B : Type} (f : A -> result B) (l : list A)
  : result (list B) :=
  match l with
  | [] => Returned []
  | a :: l' =>
      b <- f a ;;
      bs <- map_result f l' ;;
      Returned (b :: bs)
  end.

(** What the script shows, in order. *)
Inductive shown (score : Type) : Type :=
| st_success (indexed : Z)
| st_warning_no_text
| st_info_upload
| top_matches (top : list (str * score)).

Arguments st_success {score} indexed.
Arguments st_warning_no_text {score}.
Arguments st_info_upload {score}.
Arguments top_matches {score} top.

Section Retrieval.

(** The embedding model and the index are objects of the libraries
    sentence_transformers and faiss.
    - [encode q] is row 0 of
      [embed_model.encode([q], convert_to_numpy=True,
      normalize_embeddings=True).astype("float32")], and encoding a list
      encodes each text;
    - an index holds the rows added to it, in order;
    - [search rows qv k] is [index.search(qv, k)] for a one-row query:
      the pair [(D[0], I[0])] of scores and labels, or an exception.
    An upload is given as the pages that [f.read()], [PdfReader] and
    [page.extract_text()] produced, and [encode] as a function: a run in
    which one of these calls raises is outside the model, so what is proved
    of [build_index] and [script] is about the runs in which they
    succeeded. *)
Variables vec score : Type.
Variable encode : str -> vec.
Variable search : list vec -> vec -> Z -> result (list score * list Z).

Definition index := list vec.

Definition build_index (fuel : nat) (files : list file)
  : result (option index * list str) :=
  all_chunks <- add_files fuel files [] ;;
  if negb (truthy all_chunks) then Returned (None, [])
  else
    let vecs := List.map encode all_chunks in
    Returned (Some vecs, all_chunks).

Definition retrieve (index : option index) (chunks : list str)
           (query : str) (k : Z) : result (list (str * score)) :=
  let qv := encode query in
  match index with
  | None => Raised AttributeError
  | Some rows =>
      DI <- search rows qv k ;;
      ctxs <- map_result (py_index chunks) (snd DI) ;;
      let sims := fst DI in
      Returned (combine ctxs sims)
  end.

(** The script below the helpers, up to the computation of [top]; the
    call to the chat model and the layout of the page are left out. *)
Definition script (fuel : nat) (uploaded : list file) (query : str)
  : result (list (shown score)) :=
  if truthy uploaded then
    built <- build_index fuel uploaded ;;
    let index := fst built in
    let chunks := snd built in
    let out :=
      if truthy chunks then [st_success (len chunks)]
      else [st_warning_no_text] in
    if truthy query && truthy chunks then
      top <- retrieve index chunks query 5 ;;
      Returned (out ++ [top_matches top])
    else Returned out
  else Returned [st_info_upload].

End Retrieval.

Arguments build_index {vec} encode fuel files.
Arguments retrieve {vec score} encode search index chunks query k.
Arguments script {vec score} encode search fuel uploaded query.

(** What [retrieve] relies on when it calls [index.search(qv, k)] on an
    index of [N] rows, as the index library documents it: a non-positive
    [k] is refused; otherwise exactly [k] scores and [k] labels come back,
    the first [min k N] labels being rows of the index and every slot
    beyond them carrying the label [-1]. *)
Definition search_contract {vec score : Type}
           (search : list vec -> vec -> Z -> result (list score * list Z))
  : Prop :=
  (forall rows qv k, k <= 0 -> exists e, search rows qv k = Raised e) /\
  (forall rows qv k, 0 < k ->
     exists D hits,
       search rows qv k
       = Returned (D, hits ++ repeat (-1) (Z.to_nat (k - len rows))) /\
       len D = k /\
       len hits = Z.min k (len rows) /\
       Forall (fun i => 0 <= i < len rows) hits).

(** An exact inner-product search on integer vectors that meets
    [search_contract]; it is used to run [retrieve] and [script] on
    concrete data.  It is not the library's search: the order it gives to
    equal scores and the score it writes into unfilled slots are its own,
    and no property below depends on them. *)
Module Flat.

Definition dot (u v : list Z) : Z :=
  fold_right Z.add 0 (List.map (fun p => fst p * snd p) (combine u v)).

(** The score written into the slots that received no row. *)
Definition lowest : Z := - 2 ^ 127.

Fixpoint insert (x : Z * Z) (l : list (Z * Z)) : list (Z * Z) :=
  match l with
  | [] => [x]
  | y :: l' => if fst y <? fst x then x :: l else y :: insert x l'
  end.

Definition ranked (rows : list (list Z)) (qv : list Z) : list (Z * Z) :=
  fold_left (fun acc x => insert x acc)
            (combine (List.map (dot qv) rows)
                     (List.map Z.of_nat (seq 0 (List.length rows))))
            [].

Definition search (rows : list (list Z)) (qv : list Z) (k : Z)
  : result (list Z * list Z) :=
  if k <=? 0 then Raised (PyExn "AssertionError")
  else
    let top := firstn (Z.to_nat k) (ranked rows qv) in
    let pad := Z.to_nat (k - len rows) in
    Returned (List.map fst top ++ repeat lowest pad,
              List.map snd top ++ repeat (-1) pad).

(** A stand-in for the embedding model: the counts of a few letters. *)
Definition count (c : char) (s : str) : Z :=
  len (filter (fun x => (x =? c)%N) s).

Definition encode (s : str) : list Z :=
  [count 97%N s; count 101%N s; count 114%N s].

End Flat.

(** ** The corpus cache *)

Module CorpusCache.
Section Cache.

Variables Key Corpus : Type.
Variable key_eqb : Key -> Key -> bool.

(** Modelled from the spec: the single-slot cache of section 4.5
    ([get_or_build], [clear]).  app.py has no cache code of its own: it
    puts the decorator [st.cache_data] of the streamlit library on
    [build_index] and calls [st.cache_data.clear()].  [slot] is the cached
    entry; [invocations] counts the calls made to a build function. *)
Record cache : Type := mk_cache {
  slot : option (Key * Corpus);
  invocations : nat
}.

Definition empty : cache := mk_cache None 0.

Definition rebuild (c : cache) (key : Key) (build_fn : unit -> Corpus)
  : Corpus * cache :=
  let corpus := build_fn tt in
  (corpus, mk_cache (Some (key, corpus)) (S (invocations c))).

(** Modelled from the spec: "Returns a previously built Corpus if key
    matches the last build; otherwise invokes build_fn, stores the result
    keyed by key, and evicts the prior entry." *)
Definition get_or_build (c : cache) (key : Key) (build_fn : unit -> Corpus)
  : Corpus * cache :=
  match slot c with
  | Some (k, corpus) =>
      if key_eqb key k then (corpus, c) else rebuild c key build_fn
  | None => rebuild c key build_fn
  end.

(** Modelled from the spec: "clear() to drop the cached Corpus and force
    rebuild on next access." *)
Definition clear (c : cache) : cache := mk_cache None (invocations c).

(** A session: accesses and clears, in order. *)
Inductive op : Type :=
| Access (key : Key)
| Clear.

(** Runs a session in which every access passes the same builder
    [build], applied to the key; returns what each access got. *)
Fixpoint run (build : Key -> Corpus) (ops : list op) (c : cache)
  : list Corpus * cache :=
  match ops with
  | [] => ([], c)
  | Access key :: ops' =>
      let '(corpus, c') := get_or_build c key (fun _ => build key) in
      let '(got, c'') := run build ops' c' in
      (corpus :: got, c'')
  | Clear :: ops' => run build ops' (clear c)
  end.

(** What the slot holds is what the builder gives for its key. *)
Definition consistent (build : Key -> Corpus) (c : cache) : Prop :=
  forall k corpus, slot c = Some (k, corpus) -> corpus = build k.

(** The same session without a cache: every access builds. *)
Fixpoint run_uncached (build : Key -> Corpus) (ops : list op)
  : list Corpus :=
  match ops with
  | [] => []
  | Access key :: ops' => build key :: run_uncached build ops'
  | Clear :: ops' => run_uncached build ops'
  end.

End Cache.
End CorpusCache.

Arguments CorpusCache.mk_cache {Key Corpus} slot invocations.
Arguments CorpusCache.slot {Key Corpus} c.
Arguments CorpusCache.invocations {Key Corpus} c.
Arguments CorpusCache.empty {Key Corpus}.
Arguments CorpusCache.get_or_build {Key Corpus} key_eqb c key build_fn.
Arguments CorpusCache.clear {Key Corpus} c.
Arguments CorpusCache.Access {Key} key.
Arguments CorpusCache.Clear {Key}.
Arguments CorpusCache.run {Key Corpus} key_eqb build ops c.
Arguments CorpusCache.run_uncached {Key Corpus} build ops.
Arguments CorpusCache.consistent {Key Corpus} build c.

(** ** Vocabulary of the further properties *)

(** [c] occurs in [t] as a run of consecutive characters. *)
Definition substring (c t : str) : Prop :=
  exists pre post, t = pre ++ c ++ post.

(** The number of passes the loop of [chunk_text] makes over a text of [n]
    characters: one when the text fits in a window, otherwise one more than
    [(n - max_chars)] divided by the advance [max_chars - overlap], rounded
    up. *)
Definition window_count (n max_chars overlap : Z) : Z :=
  if n <=? max_chars then 1
  else 1 + (n - max_chars + (max_chars - overlap) - 1) / (max_chars - overlap).

(** [text[i * (max_chars - overlap) : i * (max_chars - overlap) + max_chars]] *)
Definition nth_window (text : str) (max_chars overlap : Z) (i : nat) : str :=
  py_slice text (Z.of_nat i * (max_chars - overlap))
           (Z.of_nat i * (max_chars - overlap) + max_chars).

(** [sep.join(parts)] *)
Fixpoint py_join (sep : str) (parts : list str) : str :=
  match parts with
  | [] => []
  | p :: rest =>
      match rest with
      | [] => p
      | _ :: _ => p ++ sep ++ py_join sep rest
      end
  end.

(** Every page of the upload is short enough for the fuel. *)
Definition fuel_covers (fuel : nat) (files : list file) : Prop :=
  Forall (Forall (fun p => (List.length (raw_text p) < fuel)%nat)) files.


(** * Properties *)

(** ** Strings and slices *)

Lemma lstrip_blank : forall s, forallb is_space s = true -> lstrip s = [].
Proof.
  induction s as [|c s IH]; simpl; intros H; [reflexivity|].
  apply andb_true_iff in H. destruct H as [Hc Hs].
  rewrite Hc. auto.
Qed.

Lemma lstrip_nil_blank : forall s, lstrip s = [] -> forallb is_space s = true.
Proof.
  induction s as [|c s IH]; simpl; intros H; [reflexivity|].
  destruct (is_space c); [simpl; auto | discriminate].
Qed.

Lemma lstrip_length : forall s, (List.length (lstrip s) <= List.length s)%nat.
Proof.
  induction s as [|c s IH]; simpl; [lia|].
  destruct (is_space c); simpl; lia.
Qed.

Lemma lstrip_hd : forall s c, hd_error (lstrip s) = Some c -> is_space c = false.
Proof.
  induction s as [|a s IH]; simpl; intros c H; [discriminate|].
  destruct (is_space a) eqn:Ha; [auto|].
  simpl in H. inversion H; subst; assumption.
Qed.

Lemma lstrip_fixed :
  forall s, (forall c, hd_error s = Some c -> is_space c = false) -> lstrip s = s.
Proof.
  destruct s as [|a s]; simpl; intros H; [reflexivity|].
  rewrite (H a eq_refl). reflexivity.
Qed.

Lemma lstrip_suffix :
  forall s, exists p, s = p ++ lstrip s /\ forallb is_space p = true.
Proof.
  induction s as [|a s [p [Hp Hb]]]; simpl.
  - exists []. split; reflexivity.
  - destruct (is_space a) eqn:Ha.
    + exists (a :: p). simpl. rewrite Ha, Hb. split; [congruence | reflexivity].
    + exists []. split; reflexivity.
Qed.

Lemma lstrip_space_app :
  forall p s, forallb is_space p = true -> lstrip (p ++ s) = lstrip s.
Proof.
  induction p as [|a p IH]; simpl; intros s H; [reflexivity|].
  apply andb_true_iff in H. destruct H as [Ha Hp].
  rewrite Ha. auto.
Qed.

Lemma rstrip_length : forall s, (List.length (rstrip s) <= List.length s)%nat.
Proof.
  intros s. unfold rstrip. rewrite length_rev.
  pose proof (lstrip_length (rev s)) as H. rewrite length_rev in H. exact H.
Qed.

Lemma strip_length : forall s, (List.length (strip s) <= List.length s)%nat.
Proof.
  intros s. unfold strip.
  pose proof (rstrip_length (lstrip s)). pose proof (lstrip_length s). lia.
Qed.

Lemma forallb_rev : forall (f : char -> bool) s, forallb f (rev s) = forallb f s.
Proof.
  intros f. induction s as [|a s IH]; simpl; [reflexivity|].
  rewrite forallb_app, IH. simpl. rewrite andb_true_r. apply andb_comm.
Qed.

Lemma rstrip_prefix :
  forall s, exists q, s = rstrip s ++ q /\ forallb is_space q = true.
Proof.
  intros s. destruct (lstrip_suffix (rev s)) as [p [Hp Hb]].
  exists (rev p). split.
  - unfold rstrip. rewrite <- rev_app_distr, <- Hp. symmetry. apply rev_involutive.
  - rewrite forallb_rev. exact Hb.
Qed.

Lemma hd_error_app_some :
  forall (a b : str) c, hd_error a = Some c -> hd_error (a ++ b) = Some c.
Proof. destruct a; simpl; intros; [discriminate | assumption]. Qed.

Lemma strip_no_outer_space : forall s, no_outer_space (strip s).
Proof.
  intros s. split; intros c H.
  - unfold strip in H.
    destruct (rstrip_prefix (lstrip s)) as [q [Hq _]].
    apply (lstrip_hd s). rewrite Hq. apply hd_error_app_some. exact H.
  - unfold strip, rstrip in H. rewrite rev_involutive in H.
    apply (lstrip_hd _ _ H).
Qed.

Lemma strip_fixed : forall s, no_outer_space s -> strip s = s.
Proof.
  intros s [Hh Hl]. unfold strip, rstrip.
  rewrite (lstrip_fixed s Hh), (lstrip_fixed (rev s) Hl).
  apply rev_involutive.
Qed.

Lemma strip_blank : forall s, forallb is_space s = true -> strip s = [].
Proof.
  intros s H. unfold strip. rewrite (lstrip_blank s H). reflexivity.
Qed.

Lemma strip_nil_blank : forall s, strip s = [] -> forallb is_space s = true.
Proof.
  intros s H. unfold strip, rstrip in H.
  assert (Hl : lstrip (rev (lstrip s)) = []).
  { rewrite <- (rev_involutive (lstrip (rev (lstrip s)))), H. reflexivity. }
  apply lstrip_nil_blank in Hl. rewrite forallb_rev in Hl.
  apply lstrip_nil_blank.
  destruct (lstrip s) as [|a t] eqn:E; [reflexivity|].
  pose proof (lstrip_hd s a) as Ha. rewrite E in Ha. specialize (Ha eq_refl).
  simpl in Hl. rewrite Ha in Hl. discriminate.
Qed.

Lemma strip_space_cons :
  forall c s, is_space c = true -> strip (c :: s) = strip s.
Proof. intros c s H. unfold strip. simpl. rewrite H. reflexivity. Qed.

Lemma strip_space_app :
  forall p s, forallb is_space p = true -> strip (p ++ s) = strip s.
Proof.
  intros p s H. unfold strip. rewrite lstrip_space_app by exact H. reflexivity.
Qed.

Lemma truthy_false_nil : forall (A : Type) (s : list A), truthy s = false -> s = [].
Proof. destruct s; simpl; [reflexivity | discriminate]. Qed.

Lemma truthy_true_len : forall (A : Type) (s : list A), truthy s = true -> 0 < len s.
Proof. destruct s; simpl; [discriminate | intros _; unfold len; simpl; lia]. Qed.

Lemma is_space_CR : is_space CR = true.
Proof. reflexivity. Qed.

Lemma is_space_LF : is_space LF = true.
Proof. reflexivity. Qed.

Lemma remove_cr_hd :
  forall s c, hd_error s = Some c -> is_space c = false ->
              hd_error (remove_cr s) = Some c.
Proof.
  destruct s as [|a s]; simpl; intros c H Hc; [discriminate|].
  inversion H; subst.
  destruct (N.eqb_spec c CR) as [->|_]; [rewrite is_space_CR in Hc; discriminate|].
  reflexivity.
Qed.

Lemma remove_cr_hd_inv :
  forall s c, (forall a, hd_error s = Some a -> is_space a = false) ->
              hd_error (remove_cr s) = Some c -> hd_error s = Some c.
Proof.
  destruct s as [|a s]; simpl; intros c H Hc; [discriminate|].
  specialize (H a eq_refl).
  destruct (N.eqb_spec a CR) as [->|_]; [rewrite is_space_CR in H; discriminate|].
  exact Hc.
Qed.

Lemma remove_cr_rev : forall s, rev (remove_cr s) = remove_cr (rev s).
Proof. intros s. unfold remove_cr. symmetry. apply filter_rev. Qed.

Lemma remove_cr_length : forall s, (List.length (remove_cr s) <= List.length s)%nat.
Proof. intros s. apply filter_length_le. Qed.

(** The text that the loop scans has no white space at either end. *)
Lemma normalize_no_outer_space : forall text, no_outer_space (normalize text).
Proof.
  intros text. unfold normalize.
  destruct (strip_no_outer_space text) as [Hh Hl].
  split; intros c H.
  - apply Hh. apply remove_cr_hd_inv; assumption.
  - rewrite remove_cr_rev in H. apply Hl. apply remove_cr_hd_inv; assumption.
Qed.

Lemma normalize_length : forall text, len (normalize text) <= len text.
Proof.
  intros text. unfold normalize, len.
  pose proof (remove_cr_length (strip text)). pose proof (strip_length text). lia.
Qed.

Lemma normalize_space_cons :
  forall c s, is_space c = true -> normalize (c :: s) = normalize s.
Proof. intros c s H. unfold normalize. rewrite strip_space_cons by exact H. reflexivity. Qed.

Lemma slice_inside :
  forall (s : str) i j, 0 <= i -> i <= j -> j <= len s ->
    py_slice s i j = firstn (Z.to_nat (j - i)) (skipn (Z.to_nat i) s).
Proof.
  intros s i j Hi Hij Hj. unfold py_slice, slice_bound.
  destruct (Z.ltb_spec i 0); [lia|]. destruct (Z.ltb_spec j 0); [lia|].
  rewrite !Z.min_l by lia. reflexivity.
Qed.

Lemma slice_length :
  forall (s : str) i j, 0 <= i -> i <= j -> j <= len s ->
    len (py_slice s i j) = j - i.
Proof.
  intros s i j Hi Hij Hj. rewrite slice_inside by assumption.
  unfold len in *. rewrite length_firstn, length_skipn. lia.
Qed.

Lemma slice_all : forall (s : str), py_slice s 0 (len s) = s.
Proof.
  intros s. rewrite slice_inside by (unfold len; lia).
  simpl. rewrite Z.sub_0_r. unfold len. rewrite Nat2Z.id. apply firstn_all.
Qed.

(** ** The loop of chunk_text *)

Lemma clamp_nonneg : forall x, 0 <= (if x <? 0 then 0 else x).
Proof. intros x. destruct (Z.ltb_spec x 0); lia. Qed.

Lemma clamp_max : forall x, (if x <? 0 then 0 else x) = Z.max 0 x.
Proof. intros x. destruct (Z.ltb_spec x 0); lia. Qed.

(** The two ways out of one pass: the window reaches the end of the text
    and the loop breaks, or [start] moves to [start + max_chars - overlap],
    not below [0]. *)
Lemma loop_body_cases :
  forall text max_chars overlap start chunks,
    let n := len text in
    let chunk := strip (py_slice text start (Z.min (start + max_chars) n)) in
    let chunks' := if truthy chunk then chunks ++ [chunk] else chunks in
    (n <= start + max_chars /\
     loop_body text max_chars overlap start chunks = Break chunks') \/
    (start + max_chars < n /\
     loop_body text max_chars overlap start chunks
     = Continue (Z.max 0 (start + max_chars - overlap)) chunks').
Proof.
  intros text max_chars overlap start chunks n chunk chunks'.
  unfold loop_body. fold n. fold chunk. fold chunks'.
  destruct (Z.eqb_spec (Z.min (start + max_chars) n) n) as [E|E].
  - left. split; [lia | reflexivity].
  - right. split; [lia|]. rewrite clamp_max. f_equal. lia.
Qed.

Lemma chunk_loop_fuel_mono :
  forall f1 f2 text max_chars overlap start chunks res,
    (f1 <= f2)%nat ->
    chunk_loop f1 text max_chars overlap start chunks = Returned res ->
    chunk_loop f2 text max_chars overlap start chunks = Returned res.
Proof.
  induction f1 as [|f1 IH]; intros f2 text mc ov start chunks res Hle H;
    simpl in H; [discriminate|].
  destruct f2 as [|f2]; [lia|]. simpl.
  destruct (start <? len text); [|exact H].
  destruct (loop_body text mc ov start chunks) as [c|s c]; [exact H|].
  apply IH; [lia | exact H].
Qed.

Lemma chunk_loop_returns :
  forall fuel text max_chars overlap start chunks,
    valid_config max_chars overlap ->
    0 <= start ->
    Z.max 0 (len text - start) < Z.of_nat fuel ->
    exists res, chunk_loop fuel text max_chars overlap start chunks = Returned res.
Proof.
  induction fuel as [|fuel IH]; intros text mc ov start chunks Hv Hs Hf; [lia|].
  simpl. destruct (Z.ltb_spec start (len text)) as [Hlt|Hge]; [|eauto].
  destruct (loop_body_cases text mc ov start chunks) as [[_ E]|[Hn E]];
    rewrite E; [eauto|].
  destruct Hv as [Hmo Ho].
  apply IH; [split; assumption | lia | lia].
Qed.

Lemma chunk_loop_never_raises :
  forall fuel text max_chars overlap start chunks e,
    chunk_loop fuel text max_chars overlap start chunks <> Raised e.
Proof.
  induction fuel as [|fuel IH]; intros text mc ov start chunks e; simpl;
    [discriminate|].
  destruct (start <? len text); [|discriminate].
  destruct (loop_body text mc ov start chunks); [discriminate | apply IH].
Qed.

(** With a valid configuration [chunk_text] returns, and the same list
    whatever fuel above the length of the text the model is given. *)
Lemma chunk_text_returns :
  forall text max_chars overlap,
    valid_config max_chars overlap ->
    exists chunks,
      forall fuel, (List.length text < fuel)%nat ->
        chunk_text fuel text max_chars overlap = Returned chunks.
Proof.
  intros text mc ov Hv. unfold chunk_text.
  destruct (truthy (normalize text)) eqn:Ht; simpl.
  - pose proof (normalize_length text) as Hn. unfold len in Hn.
    destruct (chunk_loop_returns (S (List.length text)) (normalize text) mc ov 0 [] Hv)
      as [res Hres]; [lia | unfold len; lia |].
    exists res. intros fuel Hf.
    apply (chunk_loop_fuel_mono (S (List.length text))); [lia | exact Hres].
  - exists []. reflexivity.
Qed.

Lemma chunk_text_space_cons :
  forall fuel c text max_chars overlap,
    is_space c = true ->
    chunk_text fuel (c :: text) max_chars overlap
    = chunk_text fuel text max_chars overlap.
Proof.
  intros fuel c text mc ov H. unfold chunk_text.
  rewrite normalize_space_cons by exact H. reflexivity.
Qed.

(** *** Every chunk is well formed *)

Lemma new_chunk_ok :
  forall text max_chars start,
    0 <= start < len text -> 0 < max_chars ->
    let chunk := strip (py_slice text start (Z.min (start + max_chars) (len text))) in
    truthy chunk = true -> chunk_ok max_chars chunk.
Proof.
  intros text mc start Hs Hm chunk Ht. unfold chunk_ok. repeat split.
  - intros E. rewrite E in Ht. discriminate.
  - apply strip_no_outer_space.
  - apply strip_no_outer_space.
  - unfold chunk. pose proof (strip_length (py_slice text start (Z.min (start + mc) (len text)))) as Hl.
    pose proof (slice_length text start (Z.min (start + mc) (len text))) as Hsl.
    unfold len in *. lia.
Qed.

Lemma chunk_loop_ok :
  forall fuel text max_chars overlap start chunks res,
    0 < max_chars -> 0 <= start ->
    Forall (chunk_ok max_chars) chunks ->
    chunk_loop fuel text max_chars overlap start chunks = Returned res ->
    Forall (chunk_ok max_chars) res.
Proof.
  induction fuel as [|fuel IH]; intros text mc ov start chunks res Hm Hs Hc H;
    simpl in H; [discriminate|].
  destruct (Z.ltb_spec start (len text)) as [Hlt|Hge];
    [|inversion H; subst; exact Hc].
  pose proof (new_chunk_ok text mc start (conj Hs Hlt) Hm) as Hnew. simpl in Hnew.
  assert (Hc' : Forall (chunk_ok mc)
            (if truthy (strip (py_slice text start (Z.min (start + mc) (len text))))
             then chunks ++ [strip (py_slice text start (Z.min (start + mc) (len text)))]
             else chunks)).
  { destruct (truthy _) eqn:Ht; [|exact Hc].
    apply Forall_app. split; [exact Hc | constructor; [auto | constructor]]. }
  destruct (loop_body_cases text mc ov start chunks) as [[_ E]|[_ E]];
    rewrite E in H.
  - inversion H; subst. exact Hc'.
  - eapply IH; [exact Hm | | exact Hc' | exact H]. lia.
Qed.

Lemma chunk_text_ok :
  forall fuel text max_chars overlap chunks,
    valid_config max_chars overlap ->
    chunk_text fuel text max_chars overlap = Returned chunks ->
    Forall (chunk_ok max_chars) chunks.
Proof.
  intros fuel text mc ov chunks [Hmo Ho] H. unfold chunk_text in H.
  destruct (truthy (normalize text)); cbn [negb] in H.
  - eapply chunk_loop_ok; [ | | | exact H]; [lia | lia | constructor].
  - inversion H. constructor.
Qed.

(** *** Termination (C2) *)

(** C2.  For every text and every configuration with
    [max_chars > overlap >= 0] the scan terminates and returns a list: a
    pass of the loop either reaches the end of the text and stops, or moves
    [start] to [start + max_chars - overlap] (not below [0]), which is
    further right; and [chunk_text] returns the same list for every fuel
    above the length of the text. *)
Theorem chunk_text_scan_terminates :
  forall text max_chars overlap,
    valid_config max_chars overlap ->
    (forall start chunks,
        0 <= start < len (normalize text) ->
        (len (normalize text) <= start + max_chars /\
         exists chunks',
           loop_body (normalize text) max_chars overlap start chunks
           = Break chunks') \/
        (start < Z.max 0 (start + max_chars - overlap) /\
         exists chunks',
           loop_body (normalize text) max_chars overlap start chunks
           = Continue (Z.max 0 (start + max_chars - overlap)) chunks')) /\
    exists chunks,
      forall fuel, (List.length text < fuel)%nat ->
        chunk_text fuel text max_chars overlap = Returned chunks.
Proof.
  intros text mc ov Hv. split.
  - intros start chunks Hs.
    destruct (loop_body_cases (normalize text) mc ov start chunks)
      as [[Hn E]|[Hn E]].
    + left. split; [exact Hn | eauto].
    + right. destruct Hv as [Hmo Ho]. split; [lia | eauto].
  - apply chunk_text_returns. exact Hv.
Qed.

Lemma chunk_text_scan_terminates_witness :
  exists chunks,
    forall fuel, (15 < fuel)%nat ->
      chunk_text fuel (str_of "  hello world  ") 5 2 = Returned chunks.
Proof.
  destruct (chunk_text_scan_terminates (str_of "  hello world  ") 5 2)
    as [_ H]; [unfold valid_config; lia | exact H].
Defined.

(** *** Shape of the chunks (C9) *)

(** C9.  For every text and valid [(max_chars, overlap)], [chunk_text]
    returns, and every element of the list it returns, the last one
    included, is a non-empty string with no white space at either end and
    with at most [max_chars] characters. *)
Theorem chunk_text_chunks_well_formed :
  forall text max_chars overlap,
    valid_config max_chars overlap ->
    exists chunks,
      (forall fuel, (List.length text < fuel)%nat ->
         chunk_text fuel text max_chars overlap = Returned chunks) /\
      Forall (chunk_ok max_chars) chunks.
Proof.
  intros text mc ov Hv.
  destruct (chunk_text_returns text mc ov Hv) as [chunks Hret].
  exists chunks. split; [exact Hret|].
  specialize (Hret (S (List.length text)) (Nat.lt_succ_diag_r _)).
  exact (chunk_text_ok _ _ _ _ _ Hv Hret).
Qed.

Lemma chunk_text_chunks_well_formed_witness :
  exists chunks,
    (forall fuel, (15 < fuel)%nat ->
       chunk_text fuel (str_of "  hello world  ") 5 2 = Returned chunks) /\
    Forall (chunk_ok 5) chunks.
Proof.
  apply (chunk_text_chunks_well_formed (str_of "  hello world  ") 5 2).
  unfold valid_config. lia.
Defined.

(** *** No check of the configuration (C1) *)

Lemma chunk_loop_stuck :
  forall fuel text max_chars overlap chunks,
    max_chars <= overlap -> 0 < len text -> max_chars < len text ->
    chunk_loop fuel text max_chars overlap 0 chunks = OutOfFuel.
Proof.
  induction fuel as [|fuel IH]; intros text mc ov chunks Hmo Hn Hm;
    [reflexivity|].
  simpl. destruct (Z.ltb_spec 0 (len text)) as [_|]; [|lia].
  destruct (loop_body_cases text mc ov 0 chunks) as [[Hge _]|[_ E]]; [lia|].
  rewrite E. replace (Z.max 0 (0 + mc - ov)) with 0 by lia.
  apply IH; assumption.
Qed.

Lemma chunk_loop_single :
  forall fuel text max_chars overlap,
    no_outer_space text -> 0 < len text -> len text <= max_chars ->
    chunk_loop (S fuel) text max_chars overlap 0 [] = Returned [text].
Proof.
  intros fuel text mc ov Hno Hn Hm. simpl.
  destruct (Z.ltb_spec 0 (len text)) as [_|]; [|lia].
  destruct (loop_body_cases text mc ov 0 []) as [[_ E]|[Hlt _]]; [|lia].
  rewrite E. simpl. rewrite Z.min_r by lia.
  rewrite slice_all, (strip_fixed text Hno).
  destruct text; [unfold len in Hn; simpl in Hn; lia | reflexivity].
Qed.

(** A configuration with [max_chars <= overlap] is accepted: a short text
    comes back as one chunk, and on a longer one the loop never ends. *)
Lemma chunk_text_accepts_bad_configuration :
  (5 <= 5 \/ 5 <= 0) /\
  chunk_text 1 (str_of "ab") 5 5 = Returned [str_of "ab"] /\
  chunk_text 1 (str_of "ab") 5 5 <> Raised InvalidConfiguration /\
  (forall fuel, chunk_text fuel (str_of "abcdef") 3 3 = OutOfFuel).
Proof.
  split; [lia|]. split; [reflexivity|]. split; [discriminate|].
  intros fuel. unfold chunk_text.
  change (normalize (str_of "abcdef")) with (str_of "abcdef"). simpl negb. cbv iota.
  apply chunk_loop_stuck; unfold len; simpl; lia.
Qed.

(** On a text longer than [max_chars] a configuration with
    [max_chars <= overlap] keeps [start] at [0]: no amount of fuel lets the
    loop finish. *)
Lemma chunk_text_never_finishes :
  forall text max_chars overlap,
    max_chars <= overlap ->
    0 < len (normalize text) -> max_chars < len (normalize text) ->
    forall fuel, chunk_text fuel text max_chars overlap = OutOfFuel.
Proof.
  intros text mc ov Hmo Hn Hm fuel. unfold chunk_text.
  destruct (normalize text) as [|c t] eqn:E;
    [unfold len in Hn; simpl in Hn; lia|].
  simpl negb. cbv iota. apply chunk_loop_stuck; assumption.
Qed.

(** C1, as the code has it.  [chunk_text] does not examine its
    configuration and raises nothing, whatever [max_chars] and [overlap]
    are.  With [max_chars <= overlap], a text that is blank after
    normalisation gives the empty list and a normalised text of at most
    [max_chars] characters comes back as the single chunk. *)
Theorem chunk_text_unchecked_configuration :
  forall text max_chars overlap,
    (forall fuel e, chunk_text fuel text max_chars overlap <> Raised e) /\
    (max_chars <= overlap ->
     (normalize text = [] ->
      forall fuel, chunk_text fuel text max_chars overlap = Returned []) /\
     (0 < len (normalize text) <= max_chars ->
      forall fuel, (0 < fuel)%nat ->
        chunk_text fuel text max_chars overlap = Returned [normalize text])).
Proof.
  intros text mc ov. split; [|intros Hmo; split].
  - intros fuel e. unfold chunk_text.
    destruct (truthy (normalize text)); simpl;
      [apply chunk_loop_never_raises | discriminate].
  - intros E fuel. unfold chunk_text. rewrite E. reflexivity.
  - intros [Hn Hm] fuel Hf. unfold chunk_text.
    destruct (normalize text) as [|c t] eqn:E;
      [unfold len in Hn; simpl in Hn; lia|].
    simpl negb. cbv iota. rewrite <- E in *.
    destruct fuel as [|fuel]; [lia|].
    apply chunk_loop_single;
      [apply normalize_no_outer_space | exact Hn | exact Hm].
Qed.

Lemma chunk_text_unchecked_configuration_witness :
  5 <= 5 /\ chunk_text 1 (str_of " ab ") 5 5 = Returned [str_of "ab"].
Proof.
  split; [lia|].
  destruct (chunk_text_unchecked_configuration (str_of " ab ") 5 5)
    as [_ H].
  destruct H as [_ H]; [lia|].
  apply H; [unfold len; simpl; lia | lia].
Defined.

(** *** Chunks against the text (C5) *)

Lemma firstn_extend :
  forall (t : str) a b, firstn a t ++ firstn b (skipn a t) = firstn (a + b) t.
Proof.
  intros t a. revert t.
  induction a as [|a IH]; intros t b; [reflexivity|].
  destruct t as [|c t]; simpl; [destruct b; reflexivity|].
  rewrite IH. reflexivity.
Qed.

Lemma rejoin :
  forall (t : str) s o e,
    0 <= s -> 0 <= o -> s + o <= e ->
    firstn (Z.to_nat (s + o)) t
      ++ skipn (Z.to_nat o) (firstn (Z.to_nat (e - s)) (skipn (Z.to_nat s) t))
    = firstn (Z.to_nat e) t.
Proof.
  intros t s o e Hs Ho He.
  rewrite skipn_firstn_comm, skipn_skipn.
  replace (Z.to_nat o + Z.to_nat s)%nat with (Z.to_nat (s + o)) by lia.
  rewrite firstn_extend. f_equal. lia.
Qed.

Lemma reassemble_snoc :
  forall overlap ws w,
    ws <> [] ->
    reassemble overlap (ws ++ [w])
    = reassemble overlap ws ++ skipn (Z.to_nat overlap) w.
Proof.
  intros ov ws w Hne. destruct ws as [|p rest]; [congruence|].
  simpl. rewrite map_app, concat_app. simpl.
  rewrite app_nil_r, app_assoc. reflexivity.
Qed.

Lemma clean_snoc :
  forall ws w,
    clean (ws ++ [w])
    = if truthy (strip w) then clean ws ++ [strip w] else clean ws.
Proof.
  intros ws w. unfold clean. rewrite map_app, filter_app. simpl.
  destruct (truthy (strip w)); [reflexivity | apply app_nil_r].
Qed.

Lemma window_body_cases :
  forall text max_chars overlap start windows,
    let n := len text in
    let windows' :=
      windows ++ [py_slice text start (Z.min (start + max_chars) n)] in
    (n <= start + max_chars /\
     window_body text max_chars overlap start windows = Break windows') \/
    (start + max_chars < n /\
     window_body text max_chars overlap start windows
     = Continue (Z.max 0 (start + max_chars - overlap)) windows').
Proof.
  intros text max_chars overlap start windows n windows'.
  unfold window_body. fold n. fold windows'.
  destruct (Z.eqb_spec (Z.min (start + max_chars) n) n) as [E|E].
  - left. split; [lia | reflexivity].
  - right. split; [lia|]. rewrite clamp_max. f_equal. lia.
Qed.

(** The loop of [chunk_text] is the loop over the windows followed by
    [clean]: same passes, same fuel. *)
Lemma chunk_loop_clean :
  forall fuel text max_chars overlap start windows,
    chunk_loop fuel text max_chars overlap start (clean windows)
    = (ws <- window_loop fuel text max_chars overlap start windows ;;
       Returned (clean ws)).
Proof.
  induction fuel as [|fuel IH]; intros text mc ov start ws; [reflexivity|].
  simpl. destruct (start <? len text); [|reflexivity].
  destruct (loop_body_cases text mc ov start (clean ws)) as [[H1 E1]|[H1 E1]];
    destruct (window_body_cases text mc ov start ws) as [[H2 E2]|[H2 E2]];
    try lia; rewrite E1, E2, <- clean_snoc; [reflexivity | apply IH].
Qed.

Lemma chunk_text_clean :
  forall fuel text max_chars overlap,
    chunk_text fuel text max_chars overlap
    = (ws <- chunk_windows fuel text max_chars overlap ;; Returned (clean ws)).
Proof.
  intros fuel text mc ov. unfold chunk_text, chunk_windows.
  destruct (truthy (normalize text)); simpl negb; cbv iota; [|reflexivity].
  apply (chunk_loop_clean fuel (normalize text) mc ov 0 []).
Qed.

Lemma window_loop_fuel_mono :
  forall f1 f2 text max_chars overlap start windows res,
    (f1 <= f2)%nat ->
    window_loop f1 text max_chars overlap start windows = Returned res ->
    window_loop f2 text max_chars overlap start windows = Returned res.
Proof.
  induction f1 as [|f1 IH]; intros f2 text mc ov start ws res Hle H;
    simpl in H; [discriminate|].
  destruct f2 as [|f2]; [lia|]. simpl.
  destruct (start <? len text); [|exact H].
  destruct (window_body text mc ov start ws) as [c|s c]; [exact H|].
  apply IH; [lia | exact H].
Qed.

Lemma window_loop_reassemble :
  forall fuel text max_chars overlap start windows res,
    valid_config max_chars overlap ->
    (windows = [] /\ start = 0 \/
     windows <> [] /\ 0 <= start /\ start + overlap < len text /\
     reassemble overlap windows = firstn (Z.to_nat (start + overlap)) text) ->
    0 < len text ->
    window_loop fuel text max_chars overlap start windows = Returned res ->
    reassemble overlap res = text.
Proof.
  induction fuel as [|fuel IH]; intros text mc ov start ws res Hv Hinv Hn H;
    simpl in H; [discriminate|].
  pose proof Hv as [Hmo Ho].
  destruct (Z.ltb_spec start (len text)) as [Hlt|Hge];
    [|destruct Hinv as [[_ ->]|[_ [? [? _]]]]; lia].
  assert (Hs : 0 <= start) by (destruct Hinv as [[_ ->]|[_ [? _]]]; lia).
  remember (Z.min (start + mc) (len text)) as e eqn:He.
  assert (Hre : reassemble ov (ws ++ [py_slice text start e])
                = firstn (Z.to_nat e) text).
  { rewrite slice_inside by lia.
    destruct Hinv as [[-> ->]|[Hne [_ [Hso Hr]]]].
    - simpl. rewrite app_nil_r, Z.sub_0_r. reflexivity.
    - rewrite reassemble_snoc by exact Hne. rewrite Hr.
      apply rejoin; lia. }
  destruct (window_body_cases text mc ov start ws) as [[Hend E]|[Hmore E]];
    rewrite <- He in E; rewrite E in H.
  - injection H as <-. transitivity (firstn (Z.to_nat e) text); [exact Hre|].
    replace (Z.to_nat e) with (List.length text) by (unfold len in *; lia).
    apply firstn_all.
  - eapply (IH text mc ov); [exact Hv | | exact Hn | exact H].
    right. split; [destruct ws; discriminate|].
    split; [lia|]. split; [lia|].
    transitivity (firstn (Z.to_nat e) text); [exact Hre|]. f_equal. lia.
Qed.

Lemma chunk_windows_reassemble :
  forall fuel text max_chars overlap windows,
    valid_config max_chars overlap ->
    chunk_windows fuel text max_chars overlap = Returned windows ->
    reassemble overlap windows = normalize text.
Proof.
  intros fuel text mc ov ws Hv H. unfold chunk_windows in H.
  destruct (truthy (normalize text)) eqn:Ht; cbn [negb] in H.
  - eapply window_loop_reassemble; [exact Hv | | | exact H].
    + left. split; reflexivity.
    + apply truthy_true_len. exact Ht.
  - injection H as <-. apply truthy_false_nil in Ht. rewrite Ht. reflexivity.
Qed.

(** The chunks alone do not give the text back: white space at the edge of
    a window is stripped away. *)
Lemma reassemble_chunks_loses_space :
  valid_config 3 0 /\
  chunk_text 6 (str_of "ab cd") 3 0 = Returned [str_of "ab"; str_of "cd"] /\
  reassemble 0 [str_of "ab"; str_of "cd"] = str_of "abcd" /\
  reassemble 0 [str_of "ab"; str_of "cd"] <> normalize (str_of "ab cd").
Proof.
  split; [unfold valid_config; lia|].
  split; [reflexivity|]. split; [reflexivity|]. discriminate.
Qed.

(** C5, as the code has it.  For every text and valid
    [(max_chars, overlap)]: every chunk has length at most [max_chars];
    the chunks are the windows [text[start:end]] of the scan, each stripped
    and the empty ones dropped; and it is the windows whose non-overlapping
    portions, concatenated, give back the normalised text. *)
Theorem chunk_text_windows_reassemble :
  forall text max_chars overlap,
    valid_config max_chars overlap ->
    exists windows,
      (forall fuel, (List.length text < fuel)%nat ->
         chunk_windows fuel text max_chars overlap = Returned windows /\
         chunk_text fuel text max_chars overlap = Returned (clean windows)) /\
      Forall (fun c => len c <= max_chars) (clean windows) /\
      reassemble overlap windows = normalize text.
Proof.
  intros text mc ov Hv.
  destruct (chunk_text_returns text mc ov Hv) as [chunks Hret].
  pose proof (Hret (S (List.length text)) (Nat.lt_succ_diag_r _)) as H0.
  pose proof (chunk_text_ok _ _ _ _ _ Hv H0) as Hok.
  rewrite chunk_text_clean in H0.
  destruct (chunk_windows (S (List.length text)) text mc ov) as [ws| |] eqn:Hw;
    simpl in H0; try discriminate.
  injection H0 as <-. exists ws. split; [|split].
  - intros fuel Hf.
    assert (Hwf : chunk_windows fuel text mc ov = Returned ws).
    { unfold chunk_windows in *.
      destruct (truthy (normalize text)); cbn [negb] in *; [|exact Hw].
      apply (window_loop_fuel_mono (S (List.length text))); [lia | exact Hw]. }
    split; [exact Hwf|]. rewrite chunk_text_clean, Hwf. reflexivity.
  - eapply Forall_impl; [|exact Hok]. intros c [_ [_ Hc]]. exact Hc.
  - exact (chunk_windows_reassemble _ _ _ _ _ Hv Hw).
Qed.

Lemma chunk_text_windows_reassemble_witness :
  exists windows,
    (forall fuel, (5 < fuel)%nat ->
       chunk_windows fuel (str_of "ab cd") 3 0 = Returned windows /\
       chunk_text fuel (str_of "ab cd") 3 0 = Returned (clean windows)) /\
    Forall (fun c => len c <= 3) (clean windows) /\
    reassemble 0 windows = normalize (str_of "ab cd").
Proof.
  apply (chunk_text_windows_reassemble (str_of "ab cd") 3 0).
  unfold valid_config. lia.
Defined.

(** ** Collecting the chunks of a page *)

Lemma bind_ext :
  forall (A B : Type) (r : result A) (k1 k2 : A -> result B),
    (forall a, k1 a = k2 a) -> bind r k1 = bind r k2.
Proof. intros A B [a|e|] k1 k2 H; simpl; auto. Qed.

Lemma bind_assoc :
  forall (A B C : Type) (r : result A) (k : A -> result B) (h : B -> result C),
    bind (bind r k) h = bind r (fun a => bind (k a) h).
Proof. intros A B C [a|e|] k h; reflexivity. Qed.

Lemma raw_text_some : forall s, raw_text (Some s) = s.
Proof. destruct s; reflexivity. Qed.

Lemma cons_head_app :
  forall (c : char) ps qs, ps <> [] -> cons_head c (ps ++ qs) = cons_head c ps ++ qs.
Proof. intros c [|p ps] qs H; [congruence | reflexivity]. Qed.

Lemma split_blank_cons2 :
  forall c c2 rest,
    split_blank (c :: c2 :: rest)
    = if ((c =? LF) && (c2 =? LF))%N then [] :: split_blank rest
      else cons_head c (split_blank (c2 :: rest)).
Proof. reflexivity. Qed.

Lemma split_blank_nonempty : forall s, split_blank s <> [].
Proof.
  destruct s as [|c [|c2 rest]]; [discriminate | discriminate |].
  rewrite split_blank_cons2.
  destruct ((c =? LF) && (c2 =? LF))%N; [discriminate|].
  destruct (split_blank (c2 :: rest)); discriminate.
Qed.

Lemma extend_parts_app :
  forall fuel ps qs acc,
    extend_parts fuel (ps ++ qs) acc
    = (a <- extend_parts fuel ps acc ;; extend_parts fuel qs a).
Proof.
  intros fuel. induction ps as [|p ps IH]; intros qs acc; [reflexivity|].
  simpl. rewrite bind_assoc. apply bind_ext. intros cs. apply IH.
Qed.

(** White space put in front of the first part changes nothing. *)
Lemma extend_cons_head_space :
  forall fuel c parts acc,
    is_space c = true -> parts <> [] ->
    extend_parts fuel (filter (fun p => truthy (strip p)) (cons_head c parts)) acc
    = extend_parts fuel (filter (fun p => truthy (strip p)) parts) acc.
Proof.
  intros fuel c [|p ps] acc Hc Hne; [congruence|].
  simpl. rewrite strip_space_cons by exact Hc.
  destruct (truthy (strip p)); [|reflexivity].
  simpl. rewrite chunk_text_space_cons by exact Hc. reflexivity.
Qed.

Lemma rough_parts_space_cons_bounded :
  forall n s c fuel acc,
    (List.length s <= n)%nat -> is_space c = true ->
    extend_parts fuel (rough_parts (c :: s)) acc
    = extend_parts fuel (rough_parts s) acc.
Proof.
  induction n as [|n IH]; intros s c fuel acc Hlen Hc.
  - destruct s; [|simpl in Hlen; lia].
    unfold rough_parts. simpl. rewrite (strip_blank [c]); [reflexivity|].
    simpl. rewrite Hc. reflexivity.
  - destruct s as [|c2 rest].
    + unfold rough_parts. simpl. rewrite (strip_blank [c]); [reflexivity|].
      simpl. rewrite Hc. reflexivity.
    + unfold rough_parts at 1. rewrite split_blank_cons2.
      destruct ((c =? LF) && (c2 =? LF))%N eqn:E.
      * apply andb_true_iff in E. destruct E as [_ E2].
        apply N.eqb_eq in E2. subst c2.
        simpl filter. fold (rough_parts rest).
        symmetry. apply IH; [simpl in Hlen; lia | apply is_space_LF].
      * apply extend_cons_head_space; [exact Hc | apply split_blank_nonempty].
Qed.

Lemma rough_parts_space_app :
  forall w s fuel acc,
    forallb is_space w = true ->
    extend_parts fuel (rough_parts (w ++ s)) acc
    = extend_parts fuel (rough_parts s) acc.
Proof.
  induction w as [|c w IH]; intros s fuel acc H; [reflexivity|].
  simpl in H. apply andb_true_iff in H. destruct H as [Hc Hw].
  simpl. rewrite (rough_parts_space_cons_bounded (List.length (w ++ s)));
    [apply IH; exact Hw | lia | exact Hc].
Qed.

(** Up to and including a blank line, the split of a text does not depend
    on what follows; at most one line feed is carried over. *)
Lemma split_blank_prefix_bounded :
  forall n A,
    (List.length A <= n)%nat ->
    exists ps r,
      ps <> [] /\ forallb is_space r = true /\
      forall Y, split_blank (A ++ LF :: LF :: Y) = ps ++ split_blank (r ++ Y).
Proof.
  induction n as [|n IH]; intros A Hlen.
  - destruct A; [|simpl in Hlen; lia].
    exists [[]], []. split; [discriminate|]. split; [reflexivity|].
    intros Y. reflexivity.
  - destruct A as [|c [|c2 A']].
    + exists [[]], []. split; [discriminate|]. split; [reflexivity|].
      intros Y. reflexivity.
    + destruct (N.eqb_spec c LF) as [->|Hc].
      * exists [[]], [LF]. split; [discriminate|]. split; [reflexivity|].
        intros Y. reflexivity.
      * exists [[c]], []. split; [discriminate|]. split; [reflexivity|].
        intros Y. simpl app. rewrite split_blank_cons2.
        apply N.eqb_neq in Hc. rewrite Hc. reflexivity.
    + destruct ((c =? LF) && (c2 =? LF))%N eqn:E.
      * destruct (IH A') as [ps [r [Hne [Hr Hsplit]]]]; [simpl in Hlen; lia|].
        exists ([] :: ps), r. split; [discriminate|]. split; [exact Hr|].
        intros Y. simpl app. rewrite split_blank_cons2, E, Hsplit. reflexivity.
      * destruct (IH (c2 :: A')) as [ps [r [Hne [Hr Hsplit]]]];
          [simpl in Hlen |- *; lia|].
        exists (cons_head c ps), r. split; [|split].
        -- destruct ps; discriminate.
        -- exact Hr.
        -- intros Y. simpl app. rewrite split_blank_cons2, E.
           change (c2 :: A' ++ LF :: LF :: Y) with ((c2 :: A') ++ LF :: LF :: Y).
           rewrite Hsplit. apply cons_head_app. exact Hne.
Qed.

Lemma add_page_after_blank_line :
  forall A, exists ps,
    forall fuel Y acc,
      add_page fuel (Some (A ++ LF :: LF :: Y)) acc
      = (a <- extend_parts fuel ps acc ;; add_page fuel (Some Y) a).
Proof.
  intros A.
  destruct (split_blank_prefix_bounded (List.length A) A (Nat.le_refl _))
    as [ps [r [_ [Hr Hsplit]]]].
  exists (filter (fun p => truthy (strip p)) ps). intros fuel Y acc.
  unfold add_page. rewrite !raw_text_some. unfold rough_parts at 1.
  rewrite Hsplit, filter_app, extend_parts_app.
  apply bind_ext. intros a. fold (rough_parts (r ++ Y)).
  apply rough_parts_space_app. exact Hr.
Qed.

Lemma split_blank_part_length :
  forall n s,
    (List.length s <= n)%nat ->
    Forall (fun p => (List.length p <= List.length s)%nat) (split_blank s).
Proof.
  induction n as [|n IH]; intros s Hlen.
  - destruct s; [|simpl in Hlen; lia]. simpl. constructor; [simpl; lia | constructor].
  - destruct s as [|c [|c2 rest]].
    + simpl. constructor; [simpl; lia | constructor].
    + simpl. constructor; [simpl; lia | constructor].
    + rewrite split_blank_cons2.
      destruct ((c =? LF) && (c2 =? LF))%N.
      * constructor; [simpl; lia|].
        eapply Forall_impl; [|apply (IH rest); simpl in Hlen; lia].
        simpl. intros p Hp. lia.
      * pose proof (IH (c2 :: rest)) as H.
        specialize (H ltac:(simpl in Hlen |- *; lia)).
        destruct (split_blank (c2 :: rest)) as [|p ps];
          [constructor; [simpl; lia | constructor]|].
        simpl cons_head. inversion H as [|? ? Hp Hps]; subst.
        constructor; [simpl in Hp |- *; lia|].
        eapply Forall_impl; [|exact Hps]. simpl. intros q Hq. lia.
Qed.

Lemma default_config_valid : valid_config 900 120.
Proof. unfold valid_config. lia. Qed.

Lemma extend_parts_returns :
  forall parts n acc,
    Forall (fun p => (List.length p <= n)%nat) parts ->
    exists res,
      forall fuel, (n < fuel)%nat -> extend_parts fuel parts acc = Returned res.
Proof.
  induction parts as [|p ps IH]; intros n acc H.
  - exists acc. reflexivity.
  - inversion H as [|? ? Hp Hps]; subst.
    destruct (chunk_text_returns p 900 120 default_config_valid) as [cs Hcs].
    destruct (IH n (acc ++ cs) Hps) as [res Hres].
    exists res. intros fuel Hf. simpl.
    rewrite Hcs by lia. simpl. apply Hres. exact Hf.
Qed.

Lemma add_page_returns :
  forall raw acc,
    exists res,
      forall fuel, (List.length raw < fuel)%nat ->
        add_page fuel (Some raw) acc = Returned res.
Proof.
  intros raw acc. unfold add_page. rewrite raw_text_some.
  apply extend_parts_returns. unfold rough_parts.
  pose proof (split_blank_part_length _ raw (Nat.le_refl _)) as H.
  rewrite Forall_forall in *. intros p Hp.
  apply filter_In in Hp. destruct Hp as [Hp _]. apply H. exact Hp.
Qed.

Lemma add_pages_app :
  forall fuel ps qs acc,
    add_pages fuel (ps ++ qs) acc
    = (a <- add_pages fuel ps acc ;; add_pages fuel qs a).
Proof.
  intros fuel. induction ps as [|p ps IH]; intros qs acc; [reflexivity|].
  simpl. rewrite bind_assoc. apply bind_ext. intros a. apply IH.
Qed.

Lemma add_files_app :
  forall fuel fs gs acc,
    add_files fuel (fs ++ gs) acc
    = (a <- add_files fuel fs acc ;; add_files fuel gs a).
Proof.
  intros fuel. induction fs as [|f fs IH]; intros gs acc; [reflexivity|].
  simpl. rewrite bind_assoc. apply bind_ext. intros a. apply IH.
Qed.

(** Two pages that add the same chunks to every list can be exchanged
    anywhere in the upload. *)
Lemma add_files_exchange_page :
  forall fuel p q,
    (forall acc, add_page fuel p acc = add_page fuel q acc) ->
    forall files1 pages1 pages2 files2 acc,
      add_files fuel (files1 ++ (pages1 ++ p :: pages2) :: files2) acc
      = add_files fuel (files1 ++ (pages1 ++ q :: pages2) :: files2) acc.
Proof.
  intros fuel p q H files1 pages1 pages2 files2 acc.
  rewrite !add_files_app. apply bind_ext. intros a. simpl.
  rewrite !add_pages_app. f_equal. apply bind_ext. intros b. simpl.
  rewrite H. reflexivity.
Qed.

Lemma nonblank_iff :
  forall p, truthy (strip p) = true <-> forallb is_space p = false.
Proof.
  intros p. split; intros H.
  - destruct (forallb is_space p) eqn:E; [|reflexivity].
    rewrite (strip_blank p E) in H. discriminate.
  - destruct (strip p) eqn:E; [|reflexivity].
    rewrite (strip_nil_blank p E) in H. discriminate.
Qed.

Lemma add_page_blank_section :
  forall fuel (A w B : str) acc,
    forallb is_space w = true ->
    add_page fuel (Some (A ++ LF :: LF :: w ++ LF :: LF :: B)) acc
    = add_page fuel (Some (A ++ LF :: LF :: B)) acc.
Proof.
  intros fuel A w B acc Hw.
  destruct (add_page_after_blank_line A) as [ps Hps].
  rewrite !Hps. apply bind_ext. intros a.
  unfold add_page. rewrite !raw_text_some.
  change (w ++ LF :: LF :: B) with (w ++ [LF; LF] ++ B).
  rewrite app_assoc. apply rough_parts_space_app.
  rewrite forallb_app, Hw. reflexivity.
Qed.

(** C10.  During the build each page's text is split at ["\n\n"] and a
    part made only of white space is dropped before chunking, so it adds no
    chunk; consequently a white-space-only section between two blank lines
    can be put in or taken out without changing the chunks of the page, nor
    what [build_index] returns for an upload that contains the page. *)
Theorem blank_sections_contribute_nothing :
  forall (A w B : str),
    forallb is_space w = true ->
    let with_section := A ++ [LF; LF] ++ w ++ [LF; LF] ++ B in
    let without := A ++ [LF; LF] ++ B in
    (forall raw p,
        In p (rough_parts raw)
        <-> In p (split_blank raw) /\ forallb is_space p = false) /\
    (forall fuel all_chunks,
        add_page fuel (Some with_section) all_chunks
        = add_page fuel (Some without) all_chunks) /\
    (forall (vec : Type) (encode : str -> vec) fuel files1 pages1 pages2 files2,
        build_index encode fuel
          (files1 ++ (pages1 ++ Some with_section :: pages2) :: files2)
        = build_index encode fuel
            (files1 ++ (pages1 ++ Some without :: pages2) :: files2)) /\
    (exists chunks,
        forall fuel, (List.length with_section < fuel)%nat ->
          add_page fuel (Some with_section) [] = Returned chunks /\
          add_page fuel (Some without) [] = Returned chunks).
Proof.
  intros A w B Hw with_section without.
  assert (Hpage : forall fuel acc,
             add_page fuel (Some with_section) acc
             = add_page fuel (Some without) acc).
  { intros fuel acc. apply add_page_blank_section. exact Hw. }
  split; [|split; [|split]].
  - intros raw p. unfold rough_parts. rewrite filter_In, nonblank_iff. tauto.
  - exact Hpage.
  - intros vec encode fuel files1 pages1 pages2 files2. unfold build_index.
    rewrite (add_files_exchange_page fuel _ _ (Hpage fuel)). reflexivity.
  - destruct (add_page_returns with_section []) as [chunks Hret].
    exists chunks. intros fuel Hf. rewrite <- Hpage. split; apply Hret; exact Hf.
Qed.

Lemma blank_sections_contribute_nothing_witness :
  forallb is_space (str_of "  ") = true /\
  add_page 20
    (Some (str_of "Alpha" ++ [LF; LF] ++ str_of "  " ++ [LF; LF] ++ str_of "Beta"))
    []
  = add_page 20 (Some (str_of "Alpha" ++ [LF; LF] ++ str_of "Beta")) [].
Proof.
  split; [reflexivity|].
  destruct (blank_sections_contribute_nothing
              (str_of "Alpha") (str_of "  ") (str_of "Beta"))
    as [_ [H _]]; [reflexivity | exact (H 20%nat [])].
Defined.

(** ** retrieve *)

Lemma py_index_valid :
  forall (chunks : list str) i,
    0 <= i < len chunks ->
    exists c, py_index chunks i = Returned c /\ In c chunks.
Proof.
  intros chunks i Hi. unfold py_index.
  destruct (Z.ltb_spec i 0); [lia|].
  destruct (Z.leb_spec 0 i); [|lia].
  destruct (Z.ltb_spec i (len chunks)); [|lia]. cbn [andb].
  destruct (nth_error chunks (Z.to_nat i)) as [c|] eqn:E.
  - exists c. split; [reflexivity | eapply nth_error_In; exact E].
  - apply nth_error_None in E. unfold len in Hi. lia.
Qed.

Lemma py_index_minus_one :
  forall (chunks : list str),
    chunks <> [] ->
    exists c, py_index chunks (-1) = Returned c /\ In c chunks.
Proof.
  intros chunks Hne. unfold py_index.
  assert (Hn : 0 < len chunks)
    by (destruct chunks; [congruence | unfold len; simpl; lia]).
  destruct (Z.ltb_spec (-1) 0); [|lia].
  destruct (Z.leb_spec 0 (-1 + len chunks)); [|lia].
  destruct (Z.ltb_spec (-1 + len chunks) (len chunks)); [|lia]. cbn [andb].
  destruct (nth_error chunks (Z.to_nat (-1 + len chunks))) as [c|] eqn:E.
  - exists c. split; [reflexivity | eapply nth_error_In; exact E].
  - apply nth_error_None in E. unfold len in *. lia.
Qed.

Lemma map_result_returns :
  forall (chunks : list str) labels,
    Forall (fun i => exists c, py_index chunks i = Returned c /\ In c chunks)
           labels ->
    exists ctxs,
      map_result (py_index chunks) labels = Returned ctxs /\
      List.length ctxs = List.length labels /\
      Forall (fun c => In c chunks) ctxs.
Proof.
  intros chunks. induction labels as [|i labels IH]; intros H.
  - exists []. repeat split. constructor.
  - inversion H as [|? ? [c [Hc Hin]] Hrest]; subst.
    destruct (IH Hrest) as [ctxs [Hm [Hl Hf]]].
    exists (c :: ctxs). simpl. rewrite Hc. simpl. rewrite Hm. simpl.
    repeat split; [congruence | constructor; assumption].
Qed.

Lemma combine_fst_In :
  forall (A B : Type) (P : A -> Prop) (l : list A) (l' : list B),
    Forall P l -> Forall (fun r => P (fst r)) (combine l l').
Proof.
  intros A B P. induction l as [|a l IH]; intros l' H; [constructor|].
  destruct l' as [|b l']; [constructor|].
  inversion H; subst. simpl. constructor; [assumption | apply IH; assumption].
Qed.

(** What [retrieve] returns when the labels can all be looked up: as many
    entries as there are labels, every one a stored chunk. *)
Lemma retrieve_returns_k :
  forall (vec score : Type) (encode : str -> vec)
         (search : list vec -> vec -> Z -> result (list score * list Z))
         rows chunks query k D labels,
    search rows (encode query) k = Returned (D, labels) ->
    len D = k -> len labels = k ->
    Forall (fun i => exists c, py_index chunks i = Returned c /\ In c chunks)
           labels ->
    exists top,
      retrieve encode search (Some rows) chunks query k = Returned top /\
      len top = k /\
      Forall (fun r => In (fst r) chunks) top.
Proof.
  intros vec score encode search rows chunks query k D labels Hs HD HI Hl.
  destruct (map_result_returns chunks labels Hl) as [ctxs [Hm [Hlen Hin]]].
  exists (combine ctxs D). unfold retrieve. rewrite Hs. simpl. rewrite Hm. simpl.
  split; [reflexivity|]. split.
  - unfold len in *. rewrite length_combine. lia.
  - apply (combine_fst_In _ _ (fun c => In c chunks)). exact Hin.
Qed.

(** [retrieve] neither reorders nor rescores: the scores it returns are the
    scores of the search, in the order of the search. *)
Lemma retrieve_keeps_order :
  forall (vec score : Type) (encode : str -> vec)
         (search : list vec -> vec -> Z -> result (list score * list Z))
         rows chunks query k D labels top,
    search rows (encode query) k = Returned (D, labels) ->
    List.length D = List.length labels ->
    retrieve encode search (Some rows) chunks query k = Returned top ->
    List.map snd top = D.
Proof.
  intros vec score encode search rows chunks query k D labels top Hs Hlen H.
  unfold retrieve in H. rewrite Hs in H. simpl in H.
  destruct (map_result (py_index chunks) labels) as [ctxs| |] eqn:Hm;
    simpl in H; try discriminate.
  injection H as <-.
  assert (Hc : List.length ctxs = List.length labels).
  { clear Hs Hlen. revert ctxs Hm.
    induction labels as [|i labels IH]; intros ctxs Hm; simpl in Hm.
    - injection Hm as <-. reflexivity.
    - destruct (py_index chunks i); simpl in Hm; try discriminate.
      destruct (map_result (py_index chunks) labels) as [cs| |];
        simpl in Hm; try discriminate.
      injection Hm as <-. simpl. rewrite (IH cs eq_refl). reflexivity. }
  rewrite <- Hc in Hlen. clear Hm Hc Hs. revert D Hlen.
  induction ctxs as [|c ctxs IH]; intros [|d D] Hlen; simpl in *;
    try discriminate; [reflexivity|].
  rewrite IH by lia. reflexivity.
Qed.

(** For [k > N] the slots that the search could not fill carry the label
    [-1], which [chunks[i]] reads as the last chunk: the result has [k]
    entries, not [N]. *)
Lemma retrieve_pads_beyond_corpus :
  forall (vec score : Type) (encode : str -> vec)
         (search : list vec -> vec -> Z -> result (list score * list Z)),
    search_contract search ->
    forall (rows : list vec) (chunks : list str) query k,
      len rows = len chunks -> chunks <> [] -> len chunks < k ->
      exists top,
        retrieve encode search (Some rows) chunks query k = Returned top /\
        len top = k.
Proof.
  intros vec score encode search [_ Hpos] rows chunks query k Hrows Hne Hk.
  assert (Hn : 0 <= len chunks) by (unfold len; lia).
  destruct (Hpos rows (encode query) k) as [D [hits [Hs [HD [Hh Hv]]]]]; [lia|].
  destruct (retrieve_returns_k _ _ encode search rows chunks query k D _ Hs HD)
    as [top [Ht [Hl _]]].
  - unfold len in *. rewrite length_app, repeat_length. lia.
  - apply Forall_app. split.
    + eapply Forall_impl; [|exact Hv]. intros i Hi. cbv beta in Hi.
      apply py_index_valid. lia.
    + apply Forall_forall. intros i Hi. apply repeat_spec in Hi. subst i.
      apply py_index_minus_one. exact Hne.
  - exists top. split; assumption.
Qed.

(** *** The integer search meets the contract *)

Lemma flat_insert_length :
  forall x l, List.length (Flat.insert x l) = S (List.length l).
Proof.
  intros x. induction l as [|y l IH]; simpl; [reflexivity|].
  destruct (fst y <? fst x); simpl; [reflexivity | rewrite IH; reflexivity].
Qed.

Lemma flat_insert_Forall :
  forall (P : Z * Z -> Prop) x l,
    P x -> Forall P l -> Forall P (Flat.insert x l).
Proof.
  intros P x. induction l as [|y l IH]; simpl; intros Hx Hl.
  - constructor; [exact Hx | constructor].
  - destruct (fst y <? fst x).
    + constructor; assumption.
    + inversion Hl; subst. constructor; [assumption | apply IH; assumption].
Qed.

Lemma flat_fold_length :
  forall xs acc,
    List.length (fold_left (fun a x => Flat.insert x a) xs acc)
    = (List.length xs + List.length acc)%nat.
Proof.
  induction xs as [|x xs IH]; intros acc; simpl; [reflexivity|].
  rewrite IH, flat_insert_length. lia.
Qed.

Lemma flat_fold_Forall :
  forall (P : Z * Z -> Prop) xs acc,
    Forall P xs -> Forall P acc ->
    Forall P (fold_left (fun a x => Flat.insert x a) xs acc).
Proof.
  intros P. induction xs as [|x xs IH]; intros acc Hxs Hacc; simpl;
    [exact Hacc|].
  inversion Hxs; subst. apply IH; [assumption|].
  apply flat_insert_Forall; assumption.
Qed.

Lemma flat_ranked_length :
  forall rows qv, List.length (Flat.ranked rows qv) = List.length rows.
Proof.
  intros rows qv. unfold Flat.ranked.
  rewrite flat_fold_length, length_combine, !length_map, length_seq. simpl. lia.
Qed.

Lemma flat_ranked_labels :
  forall rows qv,
    Forall (fun x => 0 <= snd x < len rows) (Flat.ranked rows qv).
Proof.
  intros rows qv. unfold Flat.ranked.
  apply flat_fold_Forall; [|constructor].
  apply Forall_forall. intros [d i] Hin. apply in_combine_r in Hin.
  apply in_map_iff in Hin. destruct Hin as [j [<- Hj]].
  apply in_seq in Hj. unfold len. simpl. lia.
Qed.

Lemma Forall_firstn_keeps :
  forall (A : Type) (P : A -> Prop) n (l : list A),
    Forall P l -> Forall P (firstn n l).
Proof.
  intros A P. induction n as [|n IH]; intros l H; [constructor|].
  destruct l as [|a l]; [constructor|].
  inversion H; subst. simpl. constructor; [assumption | apply IH; assumption].
Qed.

Lemma flat_search_contract : search_contract Flat.search.
Proof.
  split.
  - intros rows qv k Hk. unfold Flat.search.
    destruct (Z.leb_spec k 0); [eauto | lia].
  - intros rows qv k Hk. unfold Flat.search.
    destruct (Z.leb_spec k 0) as [Hle|Hgt]; [lia|].
    exists (List.map fst (firstn (Z.to_nat k) (Flat.ranked rows qv))
              ++ repeat Flat.lowest (Z.to_nat (k - len rows))),
           (List.map snd (firstn (Z.to_nat k) (Flat.ranked rows qv))).
    split; [reflexivity|]. split; [|split].
    + unfold len. rewrite length_app, length_map, length_firstn, repeat_length,
        flat_ranked_length. lia.
    + unfold len. rewrite length_map, length_firstn, flat_ranked_length. lia.
    + apply Forall_map. apply Forall_firstn_keeps. apply flat_ranked_labels.
Qed.

(** ** The empty corpus (C7) *)

Lemma build_index_shape :
  forall (vec : Type) (encode : str -> vec) fuel files index chunks,
    build_index encode fuel files = Returned (index, chunks) ->
    (index = None <-> chunks = []) /\
    (forall rows, index = Some rows -> len rows = len chunks).
Proof.
  intros vec encode fuel files index chunks H. unfold build_index in H.
  destruct (add_files fuel files []) as [all| |]; simpl in H; try discriminate.
  destruct all as [|c all]; simpl in H; inversion H; subst.
  - split; [tauto | discriminate].
  - split; [split; discriminate|].
    intros rows Hr. inversion Hr. unfold len. simpl. rewrite length_map. reflexivity.
Qed.

(** A query against an upload without text is answered by the warning, and
    [retrieve] called without an index ends in [AttributeError]. *)
Lemma empty_corpus_no_EmptyCorpus :
  build_index Flat.encode 1 [[None]] = Returned (None, []) /\
  script Flat.encode Flat.search 1 [[None]] (str_of "refund policy")
  = Returned [st_warning_no_text] /\
  retrieve Flat.encode Flat.search None [] (str_of "refund policy") 5
  = Raised AttributeError /\
  retrieve Flat.encode Flat.search None [] (str_of "refund policy") 5
  <> Raised EmptyCorpus.
Proof.
  split; [reflexivity|]. split; [reflexivity|]. split; [reflexivity|].
  discriminate.
Qed.

(** C7, as the code has it.  [build_index] returns no index exactly when
    it returns no chunks; on such a corpus the script does not query: the
    test [if query and chunks] fails, the only thing shown is the warning
    that no text was found, and nothing is raised.  [retrieve] itself,
    called without an index, fails with [AttributeError]. *)
Theorem empty_corpus_is_not_queried :
  forall (vec score : Type) (encode : str -> vec)
         (search : list vec -> vec -> Z -> result (list score * list Z))
         fuel uploaded query,
    (forall index chunks,
        build_index encode fuel uploaded = Returned (index, chunks) ->
        (index = None <-> chunks = [])) /\
    (build_index encode fuel uploaded = Returned (None, []) ->
     uploaded <> [] ->
     script encode search fuel uploaded query = Returned [st_warning_no_text]) /\
    (forall chunks k,
        retrieve encode search None chunks query k = Raised AttributeError).
Proof.
  intros vec score encode search fuel uploaded query. split; [|split].
  - intros index chunks H. apply (build_index_shape _ _ _ _ _ _ H).
  - intros H Hne. unfold script.
    destruct uploaded as [|f fs]; [congruence|].
    cbn [truthy]. rewrite H. simpl. rewrite andb_false_r. reflexivity.
  - intros chunks k. reflexivity.
Qed.

Lemma empty_corpus_is_not_queried_witness :
  script Flat.encode Flat.search 1 [[None]] (str_of "refund policy")
  = Returned [st_warning_no_text].
Proof.
  destruct (empty_corpus_is_not_queried _ _ Flat.encode Flat.search 1%nat
              [[None]] (str_of "refund policy")) as [_ [H _]].
  apply H; [reflexivity | discriminate].
Defined.

(** ** The corpus cache (C8) *)

Section CacheProperties.

Variables Key Corpus : Type.
Variable key_eqb : Key -> Key -> bool.
Hypothesis key_eqb_eq : forall a b, key_eqb a b = true <-> a = b.
Variable build : Key -> Corpus.

Import CorpusCache.

Lemma get_or_build_consistent :
  forall c key,
    consistent build c ->
    fst (get_or_build key_eqb c key (fun _ => build key)) = build key /\
    consistent build
               (snd (get_or_build key_eqb c key (fun _ => build key))).
Proof.
  intros c key Hc. unfold get_or_build.
  destruct (slot c) as [[k corpus]|] eqn:E.
  - destruct (key_eqb key k) eqn:Ek.
    + apply key_eqb_eq in Ek. subst k. simpl.
      split; [apply (Hc _ _ E) | exact Hc].
    + simpl. split; [reflexivity|].
      intros k' c' H. simpl in H. inversion H; subst. reflexivity.
  - simpl. split; [reflexivity|].
    intros k' c' H. simpl in H. inversion H; subst. reflexivity.
Qed.

Lemma clear_consistent :
  forall c : cache Key Corpus, consistent build (clear c).
Proof. intros c k corpus H. simpl in H. discriminate. Qed.

Lemma run_transparent :
  forall ops c,
    consistent build c ->
    fst (run key_eqb build ops c) = run_uncached build ops.
Proof.
  induction ops as [|[key|] ops IH]; intros c Hc; simpl.
  - reflexivity.
  - destruct (get_or_build_consistent c key Hc) as [Hget Hcons].
    destruct (get_or_build key_eqb c key (fun _ => build key)) as [corpus c'].
    simpl in Hget, Hcons. specialize (IH c' Hcons).
    destruct (run key_eqb build ops c') as [got c'']. simpl in *.
    rewrite Hget, IH. reflexivity.
  - apply IH. apply clear_consistent.
Qed.

Lemma get_or_build_hit :
  forall c key k corpus (g : unit -> Corpus),
    slot c = Some (k, corpus) -> key_eqb key k = true ->
    get_or_build key_eqb c key g = (corpus, c).
Proof.
  intros c key k corpus g E Ek. unfold get_or_build. rewrite E, Ek. reflexivity.
Qed.

Lemma get_or_build_fills :
  forall c key (f : unit -> Corpus),
    exists k,
      slot (snd (get_or_build key_eqb c key f))
      = Some (k, fst (get_or_build key_eqb c key f)) /\
      key_eqb key k = true /\
      (invocations (snd (get_or_build key_eqb c key f))
       <= S (invocations c))%nat.
Proof.
  intros c key f.
  assert (Hkk : key_eqb key key = true) by (apply key_eqb_eq; reflexivity).
  unfold get_or_build.
  destruct (slot c) as [[k corpus]|] eqn:E.
  - destruct (key_eqb key k) eqn:Ek.
    + exists k. simpl. split; [exact E|]. split; [exact Ek | lia].
    + exists key. simpl. split; [reflexivity|]. split; [exact Hkk | lia].
  - exists key. simpl. split; [reflexivity|]. split; [exact Hkk | lia].
Qed.

Lemma second_access_hits :
  forall c key (f g : unit -> Corpus),
    let first := get_or_build key_eqb c key f in
    let second := get_or_build key_eqb (snd first) key g in
    fst second = fst first /\
    invocations (snd second) = invocations (snd first) /\
    (invocations (snd second) <= S (invocations c))%nat.
Proof.
  intros c key f g first second.
  destruct (get_or_build_fills c key f) as [k [Hslot [Hk Hinv]]].
  fold first in Hslot, Hinv.
  assert (E : second = (fst first, snd first))
    by (apply (get_or_build_hit _ _ k); assumption).
  rewrite E. simpl. repeat split. exact Hinv.
Qed.

Lemma access_after_clear_builds :
  forall c key (g : unit -> Corpus),
    get_or_build key_eqb (clear c) key g
    = (g tt, mk_cache (Some (key, g tt)) (S (invocations c))).
Proof. intros c key g. reflexivity. Qed.

End CacheProperties.

(** C8.  The cache does not change what a query sees: in every session
    of accesses and clears started on the empty cache, each access gets the
    corpus an uncached build of its key gives, so any query on it gives the
    same result.  Two accesses in a row with one key call the build
    function at most once, the second not at all; after [clear] the next
    access with that key calls it again. *)
Theorem cache_is_transparent :
  forall (Key Corpus : Type) (key_eqb : Key -> Key -> bool),
    (forall a b, key_eqb a b = true <-> a = b) ->
    forall (build : Key -> Corpus),
      (forall ops,
          fst (CorpusCache.run key_eqb build ops CorpusCache.empty)
          = CorpusCache.run_uncached build ops) /\
      (forall (Result : Type) (query : Corpus -> Result) ops,
          List.map query
                   (fst (CorpusCache.run key_eqb build ops CorpusCache.empty))
          = List.map query (CorpusCache.run_uncached build ops)) /\
      (forall c key (f g : unit -> Corpus),
          let first := CorpusCache.get_or_build key_eqb c key f in
          let second := CorpusCache.get_or_build key_eqb (snd first) key g in
          fst second = fst first /\
          CorpusCache.invocations (snd second)
          = CorpusCache.invocations (snd first) /\
          (CorpusCache.invocations (snd second)
           <= S (CorpusCache.invocations c))%nat) /\
      (forall c key (f g : unit -> Corpus),
          let first := CorpusCache.get_or_build key_eqb c key f in
          let again :=
            CorpusCache.get_or_build key_eqb (CorpusCache.clear (snd first))
                                     key g in
          fst again = g tt /\
          CorpusCache.invocations (snd again)
          = S (CorpusCache.invocations (snd first))).
Proof.
  intros Key Corpus key_eqb Heq build.
  assert (Hrun : forall ops,
             fst (CorpusCache.run key_eqb build ops CorpusCache.empty)
             = CorpusCache.run_uncached build ops).
  { intros ops. apply (run_transparent _ _ key_eqb Heq).
    intros k corpus H. simpl in H. discriminate. }
  split; [exact Hrun|]. split; [|split].
  - intros Result query ops. rewrite Hrun. reflexivity.
  - intros c key f g. apply (second_access_hits _ _ key_eqb Heq).
  - intros c key f g. cbv zeta.
    rewrite access_after_clear_builds. split; reflexivity.
Qed.

Lemma cache_is_transparent_witness :
  fst (CorpusCache.run Nat.eqb (fun k => [k; k])
         [CorpusCache.Access 1%nat; CorpusCache.Access 1%nat;
          CorpusCache.Clear; CorpusCache.Access 1%nat;
          CorpusCache.Access 2%nat]
         CorpusCache.empty)
  = [[1; 1]; [1; 1]; [1; 1]; [2; 2]]%nat.
Proof.
  destruct (cache_is_transparent nat (list nat) Nat.eqb Nat.eqb_eq
              (fun k => [k; k])) as [H _].
  exact (H [CorpusCache.Access 1%nat; CorpusCache.Access 1%nat;
            CorpusCache.Clear; CorpusCache.Access 1%nat;
            CorpusCache.Access 2%nat]).
Defined.

(** ** Runs on the examples of the design document *)

Example chunk_text_empty : chunk_text 1 [] 900 120 = Returned [].
Proof. reflexivity. Qed.

Example chunk_text_short :
  chunk_text 1 (str_of "short text") 900 120 = Returned [str_of "short text"].
Proof. reflexivity. Qed.

Example chunk_text_overlapping :
  chunk_text 4 (str_of "  hello world  ") 5 2
  = Returned [str_of "hello"; str_of "lo wo"; str_of "world"].
Proof. reflexivity. Qed.

Example split_blank_three_line_feeds :
  split_blank (str_of "a" ++ [LF; LF; LF] ++ str_of "b")
  = [str_of "a"; LF :: str_of "b"].
Proof. reflexivity. Qed.

Example build_index_alpha_beta :
  build_index Flat.encode 30
    [[Some (str_of "Alpha text about pricing." ++ [LF; LF]
            ++ str_of "Beta text about refunds.")]]
  = Returned
      (Some [Flat.encode (str_of "Alpha text about pricing.");
             Flat.encode (str_of "Beta text about refunds.")],
       [str_of "Alpha text about pricing."; str_of "Beta text about refunds."]).
Proof. reflexivity. Qed.

(** * Further properties of the code *)

(** ** chunk_text: edge cases *)

Lemma chunk_text_short_text_any :
  forall text max_chars overlap fuel,
    0 < len (normalize text) <= max_chars ->
    (0 < fuel)%nat ->
    chunk_text fuel text max_chars overlap = Returned [normalize text].
Proof.
  intros text mc ov fuel [Hn Hm] Hf. unfold chunk_text.
  destruct (normalize text) as [|c t] eqn:E;
    [unfold len in Hn; simpl in Hn; lia|].
  simpl negb. cbv iota. rewrite <- E in *.
  destruct fuel as [|fuel]; [lia|].
  apply chunk_loop_single;
    [apply normalize_no_outer_space | exact Hn | exact Hm].
Qed.

(** X1.  A text whose normalised form has between 1 and [max_chars]
    characters comes back as exactly one chunk, the normalised text,
    whatever [overlap] is. *)
Theorem chunk_text_short_text :
  forall text max_chars overlap fuel,
    0 < len (normalize text) <= max_chars ->
    (0 < fuel)%nat ->
    chunk_text fuel text max_chars overlap = Returned [normalize text].
Proof.
  intros text mc ov fuel Hfit Hf.
  apply chunk_text_short_text_any; assumption.
Qed.

Lemma chunk_text_short_text_witness :
  0 < len (normalize (str_of " short text ")) <= 900 /\
  chunk_text 1 (str_of " short text ") 900 (-7) = Returned [str_of "short text"].
Proof.
  split; [unfold len; simpl; lia|].
  apply (chunk_text_short_text (str_of " short text ") 900 (-7) 1);
    [unfold len; simpl; lia | lia].
Defined.

Lemma normalize_blank :
  forall text, forallb is_space text = true -> normalize text = [].
Proof.
  intros text H. unfold normalize. rewrite (strip_blank text H). reflexivity.
Qed.

Lemma normalize_nonblank :
  forall text, forallb is_space text = false -> truthy (normalize text) = true.
Proof.
  intros text H. unfold normalize.
  destruct (strip text) as [|c t] eqn:E.
  - rewrite (strip_nil_blank text E) in H. discriminate.
  - destruct (strip_no_outer_space text) as [Hh _]. rewrite E in Hh.
    specialize (Hh c eq_refl).
    pose proof (remove_cr_hd (c :: t) c eq_refl Hh) as Hr.
    destruct (remove_cr (c :: t)); [discriminate | reflexivity].
Qed.

Lemma chunk_loop_extends :
  forall fuel text max_chars overlap start chunks res,
    chunk_loop fuel text max_chars overlap start chunks = Returned res ->
    exists more, res = chunks ++ more.
Proof.
  induction fuel as [|fuel IH]; intros text mc ov start chunks res H;
    simpl in H; [discriminate|].
  destruct (start <? len text);
    [|injection H as <-; exists []; symmetry; apply app_nil_r].
  assert (Hstep : exists one,
             (if truthy (strip (py_slice text start (Z.min (start + mc) (len text))))
              then chunks ++ [strip (py_slice text start (Z.min (start + mc) (len text)))]
              else chunks) = chunks ++ one).
  { destruct (truthy _); [eauto | exists []; symmetry; apply app_nil_r]. }
  destruct Hstep as [one Hone].
  destruct (loop_body_cases text mc ov start chunks) as [[_ E]|[_ E]];
    rewrite E, Hone in H.
  - injection H as <-. eauto.
  - destruct (IH _ _ _ _ _ _ H) as [more ->].
    exists (one ++ more). symmetry. apply app_assoc.
Qed.

Lemma strip_keeps_head :
  forall s c, hd_error s = Some c -> is_space c = false -> truthy (strip s) = true.
Proof.
  intros s c Hh Hc.
  destruct (strip s) as [|a t] eqn:E; [|reflexivity].
  pose proof (strip_nil_blank s E) as Hb.
  destruct s as [|a s]; [discriminate|].
  simpl in Hh. injection Hh as ->. simpl in Hb. rewrite Hc in Hb. discriminate.
Qed.

Lemma first_pass_appends :
  forall text max_chars,
    0 < max_chars -> truthy text = true -> no_outer_space text ->
    truthy (strip (py_slice text 0 (Z.min (0 + max_chars) (len text)))) = true.
Proof.
  intros text mc Hm Ht [Hh _].
  destruct text as [|c t]; [discriminate|].
  assert (Hn : 0 < len (c :: t)) by (unfold len; simpl; lia).
  rewrite slice_inside by lia.
  apply (strip_keeps_head _ c); [|apply Hh; reflexivity].
  simpl skipn.
  destruct (Z.to_nat (Z.min (0 + mc) (len (c :: t)) - 0)) eqn:En; [lia|].
  reflexivity.
Qed.

(** X2.  [chunk_text] returns the empty list exactly for the texts that
    hold nothing but white space: such a text gives [[]] under every
    configuration, and with a valid configuration any other text gives at
    least one chunk. *)
Theorem chunk_text_empty_iff_blank :
  forall text max_chars overlap,
    (forallb is_space text = true ->
     forall fuel, chunk_text fuel text max_chars overlap = Returned []) /\
    (forallb is_space text = false ->
     valid_config max_chars overlap ->
     exists first rest,
       forall fuel, (List.length text < fuel)%nat ->
         chunk_text fuel text max_chars overlap = Returned (first :: rest)).
Proof.
  intros text mc ov. split.
  - intros Hb fuel. unfold chunk_text. rewrite (normalize_blank text Hb).
    reflexivity.
  - intros Hb Hv.
    destruct (chunk_text_returns text mc ov Hv) as [chunks Hret].
    pose proof (Hret (S (List.length text)) (Nat.lt_succ_diag_r _)) as H0.
    unfold chunk_text in H0. pose proof (normalize_nonblank text Hb) as Ht.
    rewrite Ht in H0. cbn [negb] in H0. cbn [chunk_loop] in H0.
    destruct (Z.ltb_spec 0 (len (normalize text))) as [Hn|Hn];
      [|apply truthy_true_len in Ht; lia].
    destruct Hv as [Hmo Ho].
    pose proof (first_pass_appends (normalize text) mc ltac:(lia) Ht
                  (normalize_no_outer_space text)) as Hfirst.
    destruct (loop_body_cases (normalize text) mc ov 0 []) as [[_ E]|[_ E]];
      rewrite E, Hfirst in H0; simpl app in H0.
    + injection H0 as <-. eauto.
    + destruct (chunk_loop_extends _ _ _ _ _ _ _ H0) as [more ->].
      simpl in Hret. eauto.
Qed.

Lemma chunk_text_empty_iff_blank_witness :
  (forall fuel, chunk_text fuel (str_of "   ") 900 120 = Returned []) /\
  (exists first rest,
      forall fuel, (3 < fuel)%nat ->
        chunk_text fuel (str_of " a ") 900 120 = Returned (first :: rest)).
Proof.
  split.
  - apply (chunk_text_empty_iff_blank (str_of "   ") 900 120). reflexivity.
  - apply (chunk_text_empty_iff_blank (str_of " a ") 900 120);
      [reflexivity | exact default_config_valid].
Defined.

(** ** chunk_text: where the chunks come from *)

Lemma substring_trans :
  forall a b c, substring a b -> substring b c -> substring a c.
Proof.
  intros a b c [p1 [q1 H1]] [p2 [q2 H2]].
  exists (p2 ++ p1), (q1 ++ q2). rewrite H2, H1.
  rewrite <- !app_assoc. reflexivity.
Qed.

Lemma substring_firstn : forall n (s : str), substring (firstn n s) s.
Proof.
  intros n s. exists [], (skipn n s). simpl. symmetry. apply firstn_skipn.
Qed.

Lemma substring_skipn : forall n (s : str), substring (skipn n s) s.
Proof.
  intros n s. exists (firstn n s), []. rewrite app_nil_r.
  symmetry. apply firstn_skipn.
Qed.

Lemma substring_slice : forall (s : str) i j, substring (py_slice s i j) s.
Proof.
  intros s i j. unfold py_slice.
  eapply substring_trans; [apply substring_firstn | apply substring_skipn].
Qed.

Lemma substring_strip : forall s, substring (strip s) s.
Proof.
  intros s. unfold strip.
  destruct (rstrip_prefix (lstrip s)) as [q [Hq _]].
  destruct (lstrip_suffix s) as [p [Hp _]].
  exists p, q. rewrite <- Hq. exact Hp.
Qed.

Lemma substring_In :
  forall c t x, substring c t -> In x c -> In x t.
Proof.
  intros c t x [pre [post ->]] H.
  apply in_or_app. right. apply in_or_app. left. exact H.
Qed.

Lemma normalize_no_CR : forall text, ~ In CR (normalize text).
Proof.
  intros text H. unfold normalize, remove_cr in H.
  apply filter_In in H. destruct H as [_ H].
  rewrite N.eqb_refl in H. discriminate.
Qed.

Lemma chunk_loop_substring :
  forall fuel text max_chars overlap start chunks res,
    Forall (fun c => substring c text) chunks ->
    chunk_loop fuel text max_chars overlap start chunks = Returned res ->
    Forall (fun c => substring c text) res.
Proof.
  induction fuel as [|fuel IH]; intros text mc ov start chunks res Hc H;
    simpl in H; [discriminate|].
  destruct (start <? len text); [|injection H as <-; exact Hc].
  assert (Hc' : Forall (fun c => substring c text)
            (if truthy (strip (py_slice text start (Z.min (start + mc) (len text))))
             then chunks ++ [strip (py_slice text start (Z.min (start + mc) (len text)))]
             else chunks)).
  { destruct (truthy _); [|exact Hc].
    apply Forall_app. split; [exact Hc|]. constructor; [|constructor].
    eapply substring_trans; [apply substring_strip | apply substring_slice]. }
  destruct (loop_body_cases text mc ov start chunks) as [[_ E]|[_ E]];
    rewrite E in H.
  - injection H as <-. exact Hc'.
  - eapply IH; [exact Hc' | exact H].
Qed.

(** X3.  Whatever the configuration, every chunk that [chunk_text] returns
    is a run of consecutive characters of the normalised text, and no chunk
    holds a carriage return. *)
Theorem chunk_text_chunks_from_text :
  forall fuel text max_chars overlap chunks,
    chunk_text fuel text max_chars overlap = Returned chunks ->
    Forall (fun c => substring c (normalize text) /\ ~ In CR c) chunks.
Proof.
  intros fuel text mc ov chunks H.
  assert (Hsub : Forall (fun c => substring c (normalize text)) chunks).
  { unfold chunk_text in H.
    destruct (truthy (normalize text)); cbn [negb] in H.
    - eapply chunk_loop_substring; [constructor | exact H].
    - injection H as <-. constructor. }
  eapply Forall_impl; [|exact Hsub]. intros c Hc. cbv beta in Hc.
  split; [exact Hc|]. intros Hin.
  apply (normalize_no_CR text). eapply substring_In; eassumption.
Qed.

Lemma chunk_text_chunks_from_text_witness :
  Forall (fun c => substring c (normalize (str_of "ab" ++ [CR; LF] ++ str_of "cd"))
                   /\ ~ In CR c)
         [str_of "ab"; str_of "cd"].
Proof.
  apply (chunk_text_chunks_from_text 3 (str_of "ab" ++ [CR; LF] ++ str_of "cd") 3 0).
  reflexivity.
Defined.

(** ** chunk_text without the loop *)

Lemma slice_min_end :
  forall (s : str) i j,
    0 <= j -> py_slice s i (Z.min j (len s)) = py_slice s i j.
Proof.
  intros s i j Hj. unfold py_slice, slice_bound.
  assert (Hn : 0 <= len s) by (unfold len; lia).
  destruct (Z.ltb_spec (Z.min j (len s)) 0); [lia|].
  destruct (Z.ltb_spec j 0); [lia|].
  rewrite Z.min_l by lia. reflexivity.
Qed.

Lemma window_count_spec :
  forall n max_chars overlap,
    valid_config max_chars overlap -> 0 < n ->
    let step := max_chars - overlap in
    let q := window_count n max_chars overlap - 1 in
    0 <= q /\ q * step < n /\ n <= q * step + max_chars /\
    (forall j, 0 <= j < q -> j * step + max_chars < n).
Proof.
  intros n mc ov [Hmo Ho] Hn step q. unfold window_count in q.
  destruct (Z.leb_spec n mc) as [Hle|Hgt].
  - subst q. simpl. repeat split; try lia.
  - assert (Hstep : 0 < step) by (unfold step; lia).
    pose proof (Z.div_mod (n - mc + step - 1) step ltac:(lia)) as Hdm.
    pose proof (Z.mod_pos_bound (n - mc + step - 1) step Hstep) as Hmod.
    assert (Hq : q = (n - mc + step - 1) / step) by (unfold q, step; lia).
    rewrite <- Hq in Hdm.
    assert (Hq0 : 0 <= q) by (rewrite Hq; apply Z.div_pos; lia).
    repeat split; nia.
Qed.

Lemma window_loop_closed :
  forall k j fuel acc text max_chars overlap,
    valid_config max_chars overlap -> 0 < len text ->
    Z.of_nat j + Z.of_nat k = window_count (len text) max_chars overlap - 1 ->
    (k < fuel)%nat ->
    window_loop fuel text max_chars overlap
                (Z.of_nat j * (max_chars - overlap)) acc
    = Returned (acc ++ List.map (nth_window text max_chars overlap) (seq j (S k))).
Proof.
  induction k as [|k IH]; intros j fuel acc text mc ov Hv Hn Hjk Hf;
    (destruct fuel as [|fuel]; [lia|]);
    pose proof (window_count_spec (len text) mc ov Hv Hn) as Hspec;
    cbv zeta in Hspec; destruct Hspec as [Hq0 [Hqn [Hqe Hbefore]]];
    pose proof Hv as [Hmo Ho]; cbn [window_loop].
  - replace (window_count (len text) mc ov - 1) with (Z.of_nat j) in * by lia.
    destruct (Z.ltb_spec (Z.of_nat j * (mc - ov)) (len text)); [|lia].
    destruct (window_body_cases text mc ov (Z.of_nat j * (mc - ov)) acc)
      as [[_ E]|[Hlt _]]; [|lia].
    rewrite E. rewrite slice_min_end by nia. reflexivity.
  - assert (Hj : Z.of_nat j * (mc - ov) + mc < len text)
      by (apply Hbefore; lia).
    destruct (Z.ltb_spec (Z.of_nat j * (mc - ov)) (len text)); [|lia].
    destruct (window_body_cases text mc ov (Z.of_nat j * (mc - ov)) acc)
      as [[Hge _]|[_ E]]; [lia|].
    rewrite E. rewrite slice_min_end by nia.
    replace (Z.max 0 (Z.of_nat j * (mc - ov) + mc - ov))
      with (Z.of_nat (S j) * (mc - ov)) by nia.
    rewrite (IH (S j)); [ | exact Hv | exact Hn | lia | lia].
    rewrite <- app_assoc. reflexivity.
Qed.

(** X4.  With a valid configuration the loop of [chunk_text] is a plain
    enumeration: the windows are [text[i*s : i*s + max_chars]] for
    [i = 0 .. w-1], where [s = max_chars - overlap] and [w] is one more than
    [(n - max_chars) / s] rounded up (one when the text fits); the chunks
    are these windows stripped, the empty ones dropped.  So there are at
    most [w] chunks. *)
Theorem chunk_text_closed_form :
  forall text max_chars overlap,
    valid_config max_chars overlap ->
    forallb is_space text = false ->
    let t := normalize text in
    let w := window_count (len t) max_chars overlap in
    let windows :=
      List.map (nth_window t max_chars overlap) (seq 0 (Z.to_nat w)) in
    (forall fuel, (List.length text < fuel)%nat ->
       chunk_windows fuel text max_chars overlap = Returned windows /\
       chunk_text fuel text max_chars overlap = Returned (clean windows)) /\
    len (clean windows) <= w.
Proof.
  intros text mc ov Hv Hb t w windows.
  pose proof (normalize_nonblank text Hb) as Ht. fold t in Ht.
  pose proof (truthy_true_len _ _ Ht) as Hn.
  pose proof (window_count_spec (len t) mc ov Hv Hn) as Hspec.
  cbv zeta in Hspec. fold w in Hspec. destruct Hspec as [Hq0 [Hqn [Hqe _]]].
  pose proof Hv as [Hmo Ho].
  assert (Hlen : len t <= len text) by apply normalize_length.
  split.
  - intros fuel Hf.
    assert (Hw : chunk_windows fuel text mc ov = Returned windows).
    { unfold chunk_windows. fold t. rewrite Ht. cbn [negb].
      pose proof (window_loop_closed (Z.to_nat (w - 1)) 0 fuel [] t mc ov Hv Hn)
        as H.
      simpl app in H. simpl Z.of_nat in H. rewrite Z.mul_0_l in H.
      unfold windows. replace (Z.to_nat w) with (S (Z.to_nat (w - 1))) by lia.
      apply H; [fold w; lia|]. unfold len in *. nia. }
    split; [exact Hw|]. rewrite chunk_text_clean, Hw. reflexivity.
  - assert (Hwl : List.length windows = Z.to_nat w)
      by (unfold windows; rewrite length_map, length_seq; reflexivity).
    pose proof (filter_length_le truthy (List.map strip windows)) as Hle.
    rewrite length_map, Hwl in Hle. unfold clean, len.
    apply Nat2Z.inj_le in Hle. rewrite Z2Nat.id in Hle by lia. exact Hle.
Qed.

Lemma chunk_text_closed_form_witness :
  chunk_text 12 (str_of "hello world") 5 2
  = Returned (clean (List.map (nth_window (str_of "hello world") 5 2) (seq 0 3))).
Proof.
  destruct (chunk_text_closed_form (str_of "hello world") 5 2) as [H _];
    [unfold valid_config; lia | reflexivity |].
  exact (proj2 (H 12%nat ltac:(simpl; lia))).
Defined.

(** ** chunk_text: a configuration with max_chars <= overlap *)

(** X5.  With [max_chars <= overlap] the call comes back exactly when the
    normalised text fits in one window (or is empty): then the result is
    that single text (or [[]]); on any longer text no amount of fuel is
    enough, because [start] is put back to [0] after every pass. *)
Theorem chunk_text_bad_overlap_returns_iff_fits :
  forall text max_chars overlap,
    max_chars <= overlap ->
    ((exists fuel chunks,
         chunk_text fuel text max_chars overlap = Returned chunks)
     <-> (normalize text = [] \/ len (normalize text) <= max_chars)) /\
    (0 < len (normalize text) -> max_chars < len (normalize text) ->
     forall fuel, chunk_text fuel text max_chars overlap = OutOfFuel).
Proof.
  intros text mc ov Hmo.
  assert (Hloop : 0 < len (normalize text) -> mc < len (normalize text) ->
                  forall fuel, chunk_text fuel text mc ov = OutOfFuel).
  { intros Hn Hm fuel. apply chunk_text_never_finishes; assumption. }
  split; [|exact Hloop]. split.
  - intros [fuel [chunks H]].
    destruct (normalize text) as [|c t] eqn:E; [left; reflexivity|].
    right. rewrite <- E in *.
    destruct (Z.le_gt_cases (len (normalize text)) mc) as [Hle|Hgt];
      [exact Hle|].
    rewrite Hloop in H; [discriminate | rewrite E; unfold len; simpl; lia | lia].
  - intros [E|Hle].
    + exists 0%nat, []. unfold chunk_text. rewrite E. reflexivity.
    + destruct (normalize text) as [|c t] eqn:E.
      * exists 0%nat, []. unfold chunk_text. rewrite E. reflexivity.
      * exists 1%nat, [normalize text]. apply chunk_text_short_text_any.
        -- rewrite E in *. split; [unfold len; simpl; lia | exact Hle].
        -- lia.
Qed.

Lemma chunk_text_bad_overlap_returns_iff_fits_witness :
  3 <= 3 /\
  forall fuel, chunk_text fuel (str_of "abcdef") 3 3 = OutOfFuel.
Proof.
  split; [lia|].
  destruct (chunk_text_bad_overlap_returns_iff_fits (str_of "abcdef") 3 3)
    as [_ H]; [lia|].
  apply H; unfold len; simpl; lia.
Defined.

(** ** chunk_text: when the chunks give the text back *)

Lemma window_loop_plain :
  forall fuel text max_chars overlap start windows res,
    0 < max_chars -> 0 <= start ->
    Forall (fun w => w <> [] /\ substring w text) windows ->
    window_loop fuel text max_chars overlap start windows = Returned res ->
    Forall (fun w => w <> [] /\ substring w text) res.
Proof.
  induction fuel as [|fuel IH]; intros text mc ov start ws res Hm Hs Hw H;
    simpl in H; [discriminate|].
  destruct (Z.ltb_spec start (len text)) as [Hlt|Hge];
    [|injection H as <-; exact Hw].
  assert (Hw' : Forall (fun w => w <> [] /\ substring w text)
                  (ws ++ [py_slice text start (Z.min (start + mc) (len text))])).
  { apply Forall_app. split; [exact Hw|]. constructor; [|constructor].
    split; [|apply substring_slice].
    assert (Hl : len (py_slice text start (Z.min (start + mc) (len text)))
                 = Z.min (start + mc) (len text) - start)
      by (apply slice_length; lia).
    intros E. rewrite E in Hl. unfold len in Hl at 1. simpl in Hl. lia. }
  destruct (window_body_cases text mc ov start ws) as [[_ E]|[_ E]];
    rewrite E in H.
  - injection H as <-. exact Hw'.
  - eapply IH; [exact Hm | | exact Hw' | exact H]. lia.
Qed.

Lemma clean_plain :
  forall ws,
    Forall (fun w => w <> [] /\ no_outer_space w) ws -> clean ws = ws.
Proof.
  induction ws as [|w ws IH]; intros H; [reflexivity|].
  inversion H as [|? ? [Hne Hno] Hrest]; subst.
  unfold clean in *. simpl. rewrite (strip_fixed w Hno).
  destruct w; [congruence|]. simpl. rewrite (IH Hrest). reflexivity.
Qed.

Lemma spaceless_substring :
  forall w t,
    (forall c, In c t -> is_space c = false) ->
    substring w t -> no_outer_space w.
Proof.
  intros w t Ht Hsub. split; intros c Hc; apply Ht;
    eapply substring_In; try exact Hsub.
  - destruct w; simpl in Hc; [discriminate|]. injection Hc as ->. left. reflexivity.
  - apply in_rev. destruct (rev w); simpl in Hc; [discriminate|].
    injection Hc as ->. left. reflexivity.
Qed.

(** X6.  When the normalised text holds no white space at all, stripping
    changes no window and the chunks themselves give the text back: the
    first chunk followed by every later chunk without its first [overlap]
    characters is the normalised text. *)
Theorem chunk_text_reassembles_spaceless_text :
  forall text max_chars overlap,
    valid_config max_chars overlap ->
    (forall c, In c (normalize text) -> is_space c = false) ->
    exists chunks,
      (forall fuel, (List.length text < fuel)%nat ->
         chunk_text fuel text max_chars overlap = Returned chunks) /\
      reassemble overlap chunks = normalize text.
Proof.
  intros text mc ov Hv Hspace.
  destruct (chunk_text_returns text mc ov Hv) as [chunks Hret].
  exists chunks. split; [exact Hret|].
  specialize (Hret (S (List.length text)) (Nat.lt_succ_diag_r _)).
  rewrite chunk_text_clean in Hret.
  destruct (chunk_windows (S (List.length text)) text mc ov) as [ws| |] eqn:Hw;
    simpl in Hret; try discriminate.
  injection Hret as <-.
  assert (Hplain : Forall (fun w => w <> [] /\ substring w (normalize text)) ws).
  { unfold chunk_windows in Hw.
    destruct (truthy (normalize text)); cbn [negb] in Hw.
    - destruct Hv as [Hmo Ho].
      eapply window_loop_plain; [ | | constructor | exact Hw]; lia.
    - injection Hw as <-. constructor. }
  rewrite clean_plain.
  - exact (chunk_windows_reassemble _ _ _ _ _ Hv Hw).
  - eapply Forall_impl; [|exact Hplain]. intros w [Hne Hsub].
    split; [exact Hne|]. eapply spaceless_substring; eassumption.
Qed.

Lemma chunk_text_reassembles_spaceless_text_witness :
  exists chunks,
    (forall fuel, (7 < fuel)%nat ->
       chunk_text fuel (str_of "abcdefg") 3 1 = Returned chunks) /\
    reassemble 1 chunks = normalize (str_of "abcdefg").
Proof.
  apply (chunk_text_reassembles_spaceless_text (str_of "abcdefg") 3 1).
  - unfold valid_config. lia.
  - intros c Hc. simpl in Hc.
    repeat (destruct Hc as [<-|Hc]; [reflexivity|]). contradiction.
Defined.

(** ** build_index: the chunks of an upload *)

Lemma extend_parts_acc :
  forall fuel parts acc,
    extend_parts fuel parts acc
    = (cs <- extend_parts fuel parts [] ;; Returned (acc ++ cs)).
Proof.
  intros fuel. induction parts as [|p ps IH]; intros acc.
  - simpl. rewrite app_nil_r. reflexivity.
  - simpl. destruct (chunk_text fuel p 900 120) as [cs| |]; simpl;
      try reflexivity.
    rewrite (IH (acc ++ cs)), (IH cs).
    destruct (extend_parts fuel ps []) as [r| |]; simpl; try reflexivity.
    rewrite app_assoc. reflexivity.
Qed.

Lemma add_page_acc :
  forall fuel p acc,
    add_page fuel p acc = (cs <- add_page fuel p [] ;; Returned (acc ++ cs)).
Proof. intros fuel p acc. unfold add_page. apply extend_parts_acc. Qed.

Lemma add_pages_acc :
  forall fuel pages acc,
    add_pages fuel pages acc
    = (cs <- add_pages fuel pages [] ;; Returned (acc ++ cs)).
Proof.
  intros fuel. induction pages as [|p ps IH]; intros acc.
  - simpl. rewrite app_nil_r. reflexivity.
  - simpl. rewrite (add_page_acc fuel p acc).
    destruct (add_page fuel p []) as [cs| |]; simpl; try reflexivity.
    rewrite (IH (acc ++ cs)), (IH cs).
    destruct (add_pages fuel ps []) as [r| |]; simpl; try reflexivity.
    rewrite app_assoc. reflexivity.
Qed.

Lemma add_files_acc :
  forall fuel files acc,
    add_files fuel files acc
    = (cs <- add_files fuel files [] ;; Returned (acc ++ cs)).
Proof.
  intros fuel. induction files as [|f fs IH]; intros acc.
  - simpl. rewrite app_nil_r. reflexivity.
  - simpl. rewrite (add_pages_acc fuel f acc).
    destruct (add_pages fuel f []) as [cs| |]; simpl; try reflexivity.
    rewrite (IH (acc ++ cs)), (IH cs).
    destruct (add_files fuel fs []) as [r| |]; simpl; try reflexivity.
    rewrite app_assoc. reflexivity.
Qed.

(** What [build_index] returns, read off the list of chunks it collected. *)
Lemma build_index_returned :
  forall (vec : Type) (encode : str -> vec) fuel files idx chunks,
    build_index encode fuel files = Returned (idx, chunks) <->
    add_files fuel files [] = Returned chunks /\
    idx = (if truthy chunks then Some (List.map encode chunks) else None).
Proof.
  intros vec encode fuel files idx chunks. unfold build_index.
  destruct (add_files fuel files []) as [all| |]; simpl.
  - destruct all as [|c all]; simpl; split.
    + intros H. injection H as <- <-. split; reflexivity.
    + intros [H ->]. injection H as <-. reflexivity.
    + intros H. injection H as <- <-. split; reflexivity.
    + intros [H ->]. injection H as <-. reflexivity.
  - split; [discriminate | intros [H _]; discriminate].
  - split; [discriminate | intros [H _]; discriminate].
Qed.

(** X7.  The corpus follows the upload: the chunks of two lists of files
    put one after the other are the chunks of the first followed by the
    chunks of the second, and the rows of the index likewise. *)
Theorem build_index_concatenates :
  forall (vec : Type) (encode : str -> vec) fuel files1 files2 i1 c1 i2 c2,
    build_index encode fuel files1 = Returned (i1, c1) ->
    build_index encode fuel files2 = Returned (i2, c2) ->
    build_index encode fuel (files1 ++ files2)
    = Returned (if truthy (c1 ++ c2)
                then Some (List.map encode c1 ++ List.map encode c2)
                else None,
                c1 ++ c2).
Proof.
  intros vec encode fuel files1 files2 i1 c1 i2 c2 H1 H2.
  apply build_index_returned in H1. destruct H1 as [H1 _].
  apply build_index_returned in H2. destruct H2 as [H2 _].
  apply build_index_returned. split.
  - rewrite add_files_app, H1. simpl. rewrite add_files_acc, H2. reflexivity.
  - rewrite map_app. reflexivity.
Qed.

Lemma build_index_concatenates_witness :
  build_index Flat.encode 10 ([[Some (str_of "area")]] ++ [[Some (str_of "refund")]])
  = Returned (Some [Flat.encode (str_of "area"); Flat.encode (str_of "refund")],
              [str_of "area"; str_of "refund"]).
Proof.
  exact (build_index_concatenates _ Flat.encode 10
           [[Some (str_of "area")]] [[Some (str_of "refund")]]
           _ _ _ _ eq_refl eq_refl).
Defined.

Lemma extend_parts_all :
  forall (P : str -> Prop) fuel,
    (forall part cs, chunk_text fuel part 900 120 = Returned cs -> Forall P cs) ->
    forall parts acc res,
      Forall P acc ->
      extend_parts fuel parts acc = Returned res -> Forall P res.
Proof.
  intros P fuel HP. induction parts as [|p ps IH]; intros acc res Hacc H;
    simpl in H.
  - injection H as <-. exact Hacc.
  - destruct (chunk_text fuel p 900 120) as [cs| |] eqn:E; simpl in H;
      try discriminate.
    apply (IH (acc ++ cs) res); [|exact H].
    apply Forall_app. split; [exact Hacc | exact (HP p cs E)].
Qed.

Lemma add_pages_all :
  forall (P : str -> Prop) fuel,
    (forall part cs, chunk_text fuel part 900 120 = Returned cs -> Forall P cs) ->
    forall pages acc res,
      Forall P acc ->
      add_pages fuel pages acc = Returned res -> Forall P res.
Proof.
  intros P fuel HP. induction pages as [|p ps IH]; intros acc res Hacc H;
    simpl in H.
  - injection H as <-. exact Hacc.
  - destruct (add_page fuel p acc) as [a| |] eqn:E; simpl in H;
      try discriminate.
    apply (IH a res); [|exact H].
    exact (extend_parts_all P fuel HP _ _ _ Hacc E).
Qed.

Lemma add_files_all :
  forall (P : str -> Prop) fuel,
    (forall part cs, chunk_text fuel part 900 120 = Returned cs -> Forall P cs) ->
    forall files acc res,
      Forall P acc ->
      add_files fuel files acc = Returned res -> Forall P res.
Proof.
  intros P fuel HP. induction files as [|f fs IH]; intros acc res Hacc H;
    simpl in H.
  - injection H as <-. exact Hacc.
  - destruct (add_pages fuel f acc) as [a| |] eqn:E; simpl in H;
      try discriminate.
    apply (IH a res); [|exact H].
    exact (add_pages_all P fuel HP _ _ _ Hacc E).
Qed.

Lemma add_page_returns_covered :
  forall fuel p acc,
    (List.length (raw_text p) < fuel)%nat ->
    exists res, add_page fuel p acc = Returned res.
Proof.
  intros fuel p acc Hf.
  destruct (add_page_returns (raw_text p) acc) as [res Hres].
  exists res. specialize (Hres fuel Hf).
  unfold add_page in *. rewrite raw_text_some in Hres. exact Hres.
Qed.

Lemma add_pages_returns_covered :
  forall fuel pages acc,
    Forall (fun p => (List.length (raw_text p) < fuel)%nat) pages ->
    exists res, add_pages fuel pages acc = Returned res.
Proof.
  intros fuel. induction pages as [|p ps IH]; intros acc H; simpl; [eauto|].
  inversion H as [|? ? Hp Hps]; subst.
  destruct (add_page_returns_covered fuel p acc Hp) as [a Ha].
  rewrite Ha. simpl. apply IH. exact Hps.
Qed.

Lemma add_files_returns_covered :
  forall fuel files acc,
    fuel_covers fuel files ->
    exists res, add_files fuel files acc = Returned res.
Proof.
  intros fuel. induction files as [|f fs IH]; intros acc H; simpl; [eauto|].
  inversion H as [|? ? Hf Hfs]; subst.
  destruct (add_pages_returns_covered fuel f acc Hf) as [a Ha].
  rewrite Ha. simpl. apply IH. exact Hfs.
Qed.

(** X8.  A corpus that [build_index] returns is well formed: every chunk
    has between 1 and 900 characters, no white space at either end and no
    carriage return; and when there are chunks, the index holds one row per
    chunk, row [i] being the embedding of chunk [i]. *)
Theorem build_index_corpus_well_formed :
  forall (vec : Type) (encode : str -> vec) fuel files idx chunks,
    build_index encode fuel files = Returned (idx, chunks) ->
    Forall (chunk_ok 900) chunks /\
    Forall (fun c => ~ In CR c) chunks /\
    (chunks <> [] -> idx = Some (List.map encode chunks)) /\
    (forall rows, idx = Some rows -> len rows = len chunks).
Proof.
  intros vec encode fuel files idx chunks Hb.
  pose proof (proj1 (build_index_returned _ encode fuel files idx chunks) Hb)
    as [Hc Hidx].
  split; [|split; [|split]].
  - apply (add_files_all (chunk_ok 900) fuel) with (files := files) (acc := []);
      [ | constructor | exact Hc].
    intros part cs H. exact (chunk_text_ok _ _ _ _ _ default_config_valid H).
  - apply (add_files_all (fun c => ~ In CR c) fuel)
      with (files := files) (acc := []); [ | constructor | exact Hc].
    intros part cs H.
    assert (Hsub : Forall (fun c => substring c (normalize part)) cs).
    { unfold chunk_text in H.
      destruct (truthy (normalize part)); cbn [negb] in H.
      - eapply chunk_loop_substring; [constructor | exact H].
      - injection H as <-. constructor. }
    eapply Forall_impl; [|exact Hsub]. intros c Hsubc Hin. cbv beta in Hsubc.
    apply (normalize_no_CR part). exact (substring_In _ _ _ Hsubc Hin).
  - intros Hne. rewrite Hidx. destruct chunks; [congruence | reflexivity].
  - intros rows Hr. rewrite Hidx in Hr.
    destruct chunks; [discriminate|]. cbn [truthy] in Hr. injection Hr as <-.
    unfold len. simpl. rewrite length_map. reflexivity.
Qed.

Lemma build_index_corpus_well_formed_witness :
  let chunks := [str_of "Alpha text."; str_of "Beta text."] in
  Forall (chunk_ok 900) chunks /\
  Forall (fun c => ~ In CR c) chunks /\
  (chunks <> [] -> Some (List.map Flat.encode chunks)
                   = Some (List.map Flat.encode chunks)) /\
  (forall rows, Some (List.map Flat.encode chunks) = Some rows ->
                len rows = len chunks).
Proof.
  cbv zeta.
  apply (build_index_corpus_well_formed _ Flat.encode 30
           [[Some (str_of "Alpha text." ++ [CR; LF; LF] ++ str_of "Beta text.");
             None]]).
  reflexivity.
Defined.

(** ** build_index: the empty corpus *)












(** ** Splitting a page *)

Lemma py_join_cons_head :
  forall (sep : str) c parts,
    parts <> [] -> py_join sep (cons_head c parts) = c :: py_join sep parts.
Proof.
  intros sep c [|p [|q rest]] H; [congruence | reflexivity | reflexivity].
Qed.

Lemma py_join_split_bounded :
  forall n s,
    (List.length s <= n)%nat -> py_join [LF; LF] (split_blank s) = s.
Proof.
  induction n as [|n IH]; intros s Hlen.
  - destruct s; [reflexivity | simpl in Hlen; lia].
  - destruct s as [|c [|c2 rest]]; [reflexivity | reflexivity |].
    rewrite split_blank_cons2.
    destruct ((c =? LF) && (c2 =? LF))%N eqn:E.
    + apply andb_true_iff in E. destruct E as [E1 E2].
      apply N.eqb_eq in E1. apply N.eqb_eq in E2. subst c c2.
      pose proof (split_blank_nonempty rest) as Hne.
      pose proof (IH rest ltac:(simpl in Hlen; lia)) as Hrest.
      destruct (split_blank rest) as [|p ps]; [congruence|].
      cbn [py_join]. cbn [py_join] in Hrest. rewrite Hrest. reflexivity.
    + rewrite py_join_cons_head by apply split_blank_nonempty.
      rewrite (IH (c2 :: rest)) by (simpl in Hlen |- *; lia). reflexivity.
Qed.

(** X10.  Splitting a page at blank lines loses nothing but the
    separators: the parts of [raw.split("\n\n")], joined again by
    ["\n\n"], are the page text; and [rough_parts] keeps of them, in page
    order, exactly those that hold a character other than white space. *)
Theorem split_blank_round_trip :
  forall raw,
    py_join [LF; LF] (split_blank raw) = raw /\
    rough_parts raw
    = filter (fun p => negb (forallb is_space p)) (split_blank raw).
Proof.
  intros raw. split.
  - apply (py_join_split_bounded (List.length raw)). apply Nat.le_refl.
  - unfold rough_parts. apply filter_ext. intros p.
    destruct (forallb is_space p) eqn:E; simpl.
    + rewrite (strip_blank p E). reflexivity.
    + apply nonblank_iff. exact E.
Qed.


(** ** retrieve: what comes back *)

Lemma map_result_length :
  forall (A B : Type) (f : A -> result B) l r,
    map_result f l = Returned r -> List.length r = List.length l.
Proof.
  intros A B f. induction l as [|a l IH]; intros r H; simpl in H.
  - injection H as <-. reflexivity.
  - destruct (f a); simpl in H; try discriminate.
    destruct (map_result f l) as [bs| |]; simpl in H; try discriminate.
    injection H as <-. simpl. rewrite (IH bs eq_refl). reflexivity.
Qed.

Lemma map_result_app :
  forall (A B : Type) (f : A -> result B) l1 l2 r1 r2,
    map_result f l1 = Returned r1 ->
    map_result f l2 = Returned r2 ->
    map_result f (l1 ++ l2) = Returned (r1 ++ r2).
Proof.
  intros A B f. induction l1 as [|a l1 IH]; intros l2 r1 r2 H1 H2; simpl in *.
  - injection H1 as <-. exact H2.
  - destruct (f a); simpl in *; try discriminate.
    destruct (map_result f l1) as [bs| |]; simpl in H1; try discriminate.
    injection H1 as <-. rewrite (IH l2 bs r2 eq_refl H2). reflexivity.
Qed.

Lemma map_result_repeat :
  forall (A B : Type) (f : A -> result B) a b n,
    f a = Returned b -> map_result f (repeat a n) = Returned (repeat b n).
Proof.
  intros A B f a b n H. induction n as [|n IH]; [reflexivity|].
  simpl. rewrite H. simpl. rewrite IH. reflexivity.
Qed.

Lemma combine_fst :
  forall (A B : Type) (l : list A) (l' : list B),
    List.length l = List.length l' -> List.map fst (combine l l') = l.
Proof.
  intros A B. induction l as [|a l IH]; intros [|b l'] H; simpl in *;
    try discriminate; [reflexivity|].
  rewrite IH by lia. reflexivity.
Qed.

Lemma combine_snd :
  forall (A B : Type) (l : list A) (l' : list B),
    List.length l = List.length l' -> List.map snd (combine l l') = l'.
Proof.
  intros A B. induction l as [|a l IH]; intros [|b l'] H; simpl in *;
    try discriminate; [reflexivity|].
  rewrite IH by lia. reflexivity.
Qed.

(** X11.  [retrieve] neither reorders nor rescores: when the search gives
    as many scores as labels, the scores in the result are the scores of
    the search in the same order, and the text at position [j] is
    [chunks[I[j]]], the lookup following Python's rule for a negative
    index. *)
Theorem retrieve_pairs_lookup_with_score :
  forall (vec score : Type) (encode : str -> vec)
         (search : list vec -> vec -> Z -> result (list score * list Z))
         rows chunks query k D labels top,
    search rows (encode query) k = Returned (D, labels) ->
    List.length D = List.length labels ->
    retrieve encode search (Some rows) chunks query k = Returned top ->
    List.map snd top = D /\
    map_result (py_index chunks) labels = Returned (List.map fst top).
Proof.
  intros vec score encode search rows chunks query k D labels top Hs Hlen H.
  unfold retrieve in H. rewrite Hs in H. simpl in H.
  destruct (map_result (py_index chunks) labels) as [ctxs| |] eqn:Hm;
    simpl in H; try discriminate.
  injection H as <-.
  pose proof (map_result_length _ _ _ _ _ Hm) as Hc.
  rewrite combine_fst, combine_snd by lia. split; reflexivity.
Qed.

Lemma retrieve_pairs_lookup_with_score_witness :
  List.map snd [(str_of "refund", 4); (str_of "area", 4)] = [4; 4] /\
  map_result (py_index [str_of "area"; str_of "refund"]) [-1; 0]
  = Returned (List.map fst [(str_of "refund", 4); (str_of "area", 4)]).
Proof.
  exact (retrieve_pairs_lookup_with_score (list Z) Z Flat.encode
           (fun _ _ _ => Returned ([4; 4], [-1; 0]))
           [] [str_of "area"; str_of "refund"] (str_of "refer") 2
           [4; 4] [-1; 0] _ eq_refl eq_refl eq_refl).
Defined.

Lemma py_index_out_of_range :
  forall (chunks : list str) i,
    i < - len chunks \/ len chunks <= i ->
    py_index chunks i = Raised IndexError.
Proof.
  intros chunks i Hi. unfold py_index.
  assert (Hn : 0 <= len chunks) by (unfold len; lia).
  destruct (Z.ltb_spec i 0).
  - destruct (Z.leb_spec 0 (i + len chunks)); [|reflexivity].
    destruct (Z.ltb_spec (i + len chunks) (len chunks)); [lia | reflexivity].
  - destruct (Z.leb_spec 0 i); [|reflexivity].
    destruct (Z.ltb_spec i (len chunks)); [lia | reflexivity].
Qed.

Lemma py_index_raises_only_IndexError :
  forall (chunks : list str) i e,
    py_index chunks i = Raised e -> e = IndexError.
Proof.
  intros chunks i e H. unfold py_index in H.
  destruct ((0 <=? (if i <? 0 then i + len chunks else i))
            && ((if i <? 0 then i + len chunks else i) <? len chunks));
    [|injection H as <-; reflexivity].
  destruct (nth_error chunks _); [discriminate | injection H as <-; reflexivity].
Qed.

Lemma py_index_no_fuel :
  forall (chunks : list str) i, py_index chunks i <> OutOfFuel.
Proof.
  intros chunks i. unfold py_index.
  destruct ((0 <=? (if i <? 0 then i + len chunks else i))
            && ((if i <? 0 then i + len chunks else i) <? len chunks));
    [|discriminate].
  destruct (nth_error chunks _); discriminate.
Qed.

Lemma map_result_out_of_range :
  forall (chunks : list str) labels,
    Exists (fun i => i < - len chunks \/ len chunks <= i) labels ->
    map_result (py_index chunks) labels = Raised IndexError.
Proof.
  intros chunks. induction labels as [|i labels IH]; intros H;
    [inversion H|].
  simpl. destruct (py_index chunks i) as [c|e|] eqn:E; simpl.
  - inversion H as [? ? Hbad|? ? Hrest]; subst.
    + rewrite (py_index_out_of_range chunks i Hbad) in E. discriminate.
    + rewrite (IH Hrest). reflexivity.
  - rewrite (py_index_raises_only_IndexError _ _ _ E). reflexivity.
  - exfalso. exact (py_index_no_fuel _ _ E).
Qed.

(** X12.  The labels are trusted: if the search returns a label that is
    not an index of [chunks] (at or beyond [len(chunks)], or below
    [-len(chunks)]), [retrieve] ends in [IndexError]; no partial result is
    returned. *)
Theorem retrieve_label_out_of_range :
  forall (vec score : Type) (encode : str -> vec)
         (search : list vec -> vec -> Z -> result (list score * list Z))
         rows chunks query k D labels,
    search rows (encode query) k = Returned (D, labels) ->
    Exists (fun i => i < - len chunks \/ len chunks <= i) labels ->
    retrieve encode search (Some rows) chunks query k = Raised IndexError.
Proof.
  intros vec score encode search rows chunks query k D labels Hs Hbad.
  unfold retrieve. rewrite Hs. simpl.
  rewrite (map_result_out_of_range chunks labels Hbad). reflexivity.
Qed.

Lemma retrieve_label_out_of_range_witness :
  retrieve Flat.encode Flat.search
           (Some (List.map Flat.encode [str_of "area"; str_of "refund"]))
           [str_of "area"] (str_of "refer") 2
  = Raised IndexError.
Proof.
  apply (retrieve_label_out_of_range (list Z) Z Flat.encode Flat.search
           (List.map Flat.encode [str_of "area"; str_of "refund"])
           [str_of "area"] (str_of "refer") 2 [4; 4] [0; 1]);
    [reflexivity|].
  apply Exists_cons_tl. apply Exists_cons_hd. right. unfold len. simpl. lia.
Defined.

(** ** retrieve: more results asked for than chunks *)

Lemma nth_error_last :
  forall (A : Type) (l : list A) d,
    l <> [] -> nth_error l (List.length l - 1) = Some (last l d).
Proof.
  intros A. induction l as [|a l IH]; intros d H; [congruence|].
  destruct l as [|b l]; [reflexivity|].
  specialize (IH d ltac:(discriminate)).
  change (last (a :: b :: l) d) with (last (b :: l) d).
  replace (List.length (a :: b :: l) - 1)%nat
    with (S (List.length (b :: l) - 1)) by (simpl; lia).
  exact IH.
Qed.

Lemma py_index_minus_one_last :
  forall (chunks : list str),
    chunks <> [] -> py_index chunks (-1) = Returned (last chunks []).
Proof.
  intros chunks Hne. unfold py_index.
  assert (Hn : 0 < len chunks)
    by (destruct chunks; [congruence | unfold len; simpl; lia]).
  destruct (Z.ltb_spec (-1) 0); [|lia].
  destruct (Z.leb_spec 0 (-1 + len chunks)); [|lia].
  destruct (Z.ltb_spec (-1 + len chunks) (len chunks)); [|lia]. cbn [andb].
  replace (Z.to_nat (-1 + len chunks)) with (List.length chunks - 1)%nat
    by (unfold len; lia).
  rewrite (nth_error_last _ chunks [] Hne). reflexivity.
Qed.

(** X13.  Asking for more results than there are chunks does not shorten
    the answer: under the contract of the search, for
    [k > N = len(chunks) >= 1], [retrieve] returns [k] entries, and the text
    of every entry from position [N] on is the last chunk, which the label
    [-1] of an unfilled slot selects. *)
Theorem retrieve_pads_with_last_chunk :
  forall (vec score : Type) (encode : str -> vec)
         (search : list vec -> vec -> Z -> result (list score * list Z)),
    search_contract search ->
    forall (rows : list vec) (chunks : list str) query k,
      len rows = len chunks -> chunks <> [] -> len chunks < k ->
      exists top,
        retrieve encode search (Some rows) chunks query k = Returned top /\
        len top = k /\
        skipn (List.length chunks) (List.map fst top)
        = repeat (last chunks []) (Z.to_nat (k - len chunks)).
Proof.
  intros vec score encode search [_ Hpos] rows chunks query k Hrows Hne Hk.
  assert (Hn : 0 <= len chunks) by (unfold len; lia).
  destruct (Hpos rows (encode query) k) as [D [hits [Hs [HD [Hh Hv]]]]]; [lia|].
  assert (Hhits : exists ctxs,
             map_result (py_index chunks) hits = Returned ctxs).
  { destruct (map_result_returns chunks hits) as [ctxs [Hm _]]; [|eauto].
    eapply Forall_impl; [|exact Hv]. intros i Hi. cbv beta in Hi.
    apply py_index_valid. lia. }
  destruct Hhits as [ctxs Hctxs].
  pose proof (map_result_length _ _ _ _ _ Hctxs) as Hcl.
  pose proof (map_result_repeat _ _ (py_index chunks) (-1) _
                (Z.to_nat (k - len rows)) (py_index_minus_one_last chunks Hne))
    as Hpad.
  pose proof (map_result_app _ _ _ _ _ _ _ Hctxs Hpad) as Hall.
  exists (combine (ctxs ++ repeat (last chunks []) (Z.to_nat (k - len rows))) D).
  assert (Hlen : List.length (ctxs ++ repeat (last chunks []) (Z.to_nat (k - len rows)))
                 = List.length D).
  { rewrite length_app, repeat_length. unfold len in *. lia. }
  split; [|split].
  - unfold retrieve. rewrite Hs. simpl. rewrite Hall. reflexivity.
  - unfold len in *. rewrite length_combine. lia.
  - rewrite combine_fst by exact Hlen.
    replace (List.length chunks) with (List.length ctxs)
      by (unfold len in *; lia).
    rewrite skipn_app, skipn_all, Nat.sub_diag. simpl.
    rewrite Hrows. reflexivity.
Qed.

Lemma retrieve_pads_with_last_chunk_witness :
  let chunks := [str_of "area"; str_of "refund"] in
  exists top,
    retrieve Flat.encode Flat.search (Some (List.map Flat.encode chunks))
             chunks (str_of "refer") 5 = Returned top /\
    len top = 5 /\
    skipn 2 (List.map fst top) = repeat (str_of "refund") 3.
Proof.
  cbv zeta.
  apply (retrieve_pads_with_last_chunk _ _ Flat.encode Flat.search
           flat_search_contract
           (List.map Flat.encode [str_of "area"; str_of "refund"])
           [str_of "area"; str_of "refund"] (str_of "refer") 5);
    [reflexivity | discriminate | unfold len; simpl; lia].
Defined.

(** ** The script *)

Lemma retrieve_returns_under_contract :
  forall (vec score : Type) (encode : str -> vec)
         (search : list vec -> vec -> Z -> result (list score * list Z)),
    search_contract search ->
    forall (rows : list vec) (chunks : list str) query k,
      len rows = len chunks -> chunks <> [] -> 0 < k ->
      exists top,
        retrieve encode search (Some rows) chunks query k = Returned top /\
        len top = k.
Proof.
  intros vec score encode search [_ Hpos] rows chunks query k Hrows Hne Hk.
  destruct (Hpos rows (encode query) k Hk) as [D [hits [Hs [HD [Hh Hv]]]]].
  destruct (retrieve_returns_k _ _ encode search rows chunks query k D _ Hs HD)
    as [top [Ht [Hl _]]].
  - unfold len in *. rewrite length_app, repeat_length. lia.
  - apply Forall_app. split.
    + eapply Forall_impl; [|exact Hv]. intros i Hi. cbv beta in Hi.
      apply py_index_valid. lia.
    + apply Forall_forall. intros i Hi. apply repeat_spec in Hi. subst i.
      apply py_index_minus_one. exact Hne.
  - exists top. split; assumption.
Qed.

(** X14.  Once [build_index] has returned [(index, chunks)] for an upload
    that is not empty, the rest of the script does not fail under the
    contract of the search: without chunks only the warning is shown; with
    chunks and no question, only their number; with chunks and a question,
    their number followed by the result of [retrieve] for [k = 5], which
    has exactly five entries however few chunks there are. *)
Theorem script_after_build :
  forall (vec score : Type) (encode : str -> vec)
         (search : list vec -> vec -> Z -> result (list score * list Z)),
    search_contract search ->
    forall fuel uploaded query idx chunks,
      uploaded <> [] ->
      build_index encode fuel uploaded = Returned (idx, chunks) ->
      (chunks = [] ->
       script encode search fuel uploaded query = Returned [st_warning_no_text]) /\
      (chunks <> [] -> query = [] ->
       script encode search fuel uploaded query
       = Returned [st_success (len chunks)]) /\
      (chunks <> [] -> query <> [] ->
       exists top,
         retrieve encode search idx chunks query 5 = Returned top /\
         len top = 5 /\
         script encode search fuel uploaded query
         = Returned [st_success (len chunks); top_matches top]).
Proof.
  intros vec score encode search Hc fuel uploaded query idx chunks Hup Hb.
  pose proof (proj1 (build_index_returned _ encode fuel uploaded idx chunks) Hb)
    as [_ Hidx].
  unfold script. destruct uploaded as [|f fs]; [congruence|].
  cbn [truthy]. rewrite Hb. cbn [bind fst snd].
  split; [|split].
  - intros ->. cbn [truthy]. rewrite andb_false_r. reflexivity.
  - intros Hne ->. destruct chunks as [|c cs]; [congruence|]. reflexivity.
  - intros Hne Hq. destruct chunks as [|c cs]; [congruence|].
    destruct query as [|q qs]; [congruence|]. cbn [truthy andb].
    cbn [truthy] in Hidx. subst idx.
    destruct (retrieve_returns_under_contract _ _ encode search Hc
                (List.map encode (c :: cs)) (c :: cs) (q :: qs) 5)
      as [top [Ht Hl]];
      [unfold len; rewrite length_map; reflexivity | discriminate | lia|].
    exists top. split; [exact Ht|]. split; [exact Hl|].
    rewrite Ht. reflexivity.
Qed.

Lemma script_after_build_witness :
  exists top,
    retrieve Flat.encode Flat.search (Some [Flat.encode (str_of "area")])
             [str_of "area"] (str_of "refer") 5 = Returned top /\
    len top = 5 /\
    script Flat.encode Flat.search 10 [[Some (str_of "area")]] (str_of "refer")
    = Returned [st_success (len [str_of "area"]); top_matches top].
Proof.
  destruct (script_after_build _ _ Flat.encode Flat.search flat_search_contract
              10%nat [[Some (str_of "area")]] (str_of "refer")
              (Some [Flat.encode (str_of "area")]) [str_of "area"])
    as [_ [_ H]]; [discriminate | reflexivity |].
  apply H; discriminate.
Defined.

(** ** chunk_text: what does not matter in the input *)

Lemma lstrip_keeps :
  forall m q c,
    hd_error m = Some c -> is_space c = false -> lstrip (m ++ q) = m ++ q.
Proof.
  intros [|a m] q c H Hc; simpl in *; [discriminate|].
  injection H as ->. rewrite Hc. reflexivity.
Qed.

Lemma strip_sandwich :
  forall p m q,
    forallb is_space p = true -> forallb is_space q = true ->
    no_outer_space m ->
    strip (p ++ m ++ q) = m.
Proof.
  intros p m q Hp Hq [Hh Hl].
  destruct m as [|a m].
  - simpl. apply strip_blank. rewrite forallb_app, Hp, Hq. reflexivity.
  - unfold strip. rewrite lstrip_space_app by exact Hp.
    rewrite (lstrip_keeps (a :: m) q a eq_refl (Hh a eq_refl)).
    unfold rstrip. rewrite rev_app_distr.
    rewrite lstrip_space_app by (rewrite forallb_rev; exact Hq).
    rewrite (lstrip_fixed (rev (a :: m)) Hl). apply rev_involutive.
Qed.

Lemma strip_decomposition :
  forall t, exists p q,
    t = p ++ strip t ++ q /\
    forallb is_space p = true /\ forallb is_space q = true.
Proof.
  intros t. destruct (lstrip_suffix t) as [p [Hp Hpb]].
  destruct (rstrip_prefix (lstrip t)) as [q [Hq Hqb]].
  exists p, q. split; [|split; assumption].
  unfold strip. rewrite <- Hq. exact Hp.
Qed.

Lemma remove_cr_blank :
  forall p, forallb is_space p = true -> forallb is_space (remove_cr p) = true.
Proof.
  induction p as [|c p IH]; intros H; [reflexivity|].
  simpl in H. apply andb_true_iff in H. destruct H as [Hc Hp].
  simpl. destruct (negb (c =? CR)%N); simpl; [rewrite Hc|]; auto.
Qed.

(** Stripping and deleting carriage returns can be done in either order. *)
Lemma normalize_commutes :
  forall t, normalize t = strip (remove_cr t).
Proof.
  intros t. destruct (strip_decomposition t) as [p [q [Ht [Hp Hq]]]].
  rewrite Ht at 2. unfold remove_cr. rewrite !filter_app.
  symmetry. apply strip_sandwich.
  - apply remove_cr_blank. exact Hp.
  - apply remove_cr_blank. exact Hq.
  - apply normalize_no_outer_space.
Qed.

(** X15.  [chunk_text] sees neither carriage returns nor the white space
    around the text: a carriage return put anywhere in the text, and white
    space put before or after it, leave the result unchanged (so a text with
    ["\r\n"] line ends is chunked like the same text with ["\n"]). *)
Theorem chunk_text_ignores_cr_and_outer_space :
  forall fuel max_chars overlap (t1 t2 before after : str),
    chunk_text fuel (t1 ++ CR :: t2) max_chars overlap
    = chunk_text fuel (t1 ++ t2) max_chars overlap /\
    (forallb is_space before = true -> forallb is_space after = true ->
     chunk_text fuel (before ++ t1 ++ after) max_chars overlap
     = chunk_text fuel t1 max_chars overlap).
Proof.
  intros fuel mc ov t1 t2 before after. split.
  - assert (E : normalize (t1 ++ CR :: t2) = normalize (t1 ++ t2)).
    { rewrite !normalize_commutes. f_equal. unfold remove_cr.
      rewrite !filter_app. reflexivity. }
    unfold chunk_text. rewrite E. reflexivity.
  - intros Hb Ha.
    assert (E : normalize (before ++ t1 ++ after) = normalize t1).
    { unfold normalize. f_equal.
      destruct (strip_decomposition t1) as [p [q [Ht [Hp Hq]]]].
      rewrite Ht at 1.
      replace (before ++ (p ++ strip t1 ++ q) ++ after)
        with ((before ++ p) ++ strip t1 ++ (q ++ after))
        by (rewrite <- !app_assoc; reflexivity).
      apply strip_sandwich.
      - rewrite forallb_app, Hb, Hp. reflexivity.
      - rewrite forallb_app, Hq, Ha. reflexivity.
      - apply strip_no_outer_space. }
    unfold chunk_text. rewrite E. reflexivity.
Qed.

Lemma chunk_text_ignores_cr_and_outer_space_witness :
  forallb is_space [LF; CR] = true /\
  chunk_text 9 ([LF; CR] ++ str_of "ab cd" ++ str_of "  ") 3 1
  = chunk_text 9 (str_of "ab cd") 3 1.
Proof.
  split; [reflexivity|].
  apply (proj2 (chunk_text_ignores_cr_and_outer_space 9 3 1
                  (str_of "ab cd") [] [LF; CR] (str_of "  ")));
    reflexivity.
Defined.

(** ** build_index: sections that fit in one chunk *)

Lemma extend_parts_short :
  forall fuel parts acc,
    (0 < fuel)%nat ->
    Forall (fun p => forallb is_space p = false /\ len (normalize p) <= 900)
           parts ->
    extend_parts fuel parts acc
    = Returned (acc ++ List.map normalize parts).
Proof.
  intros fuel. induction parts as [|p ps IH]; intros acc Hf H.
  - simpl. rewrite app_nil_r. reflexivity.
  - inversion H as [|? ? [Hb Hl] Hps]; subst. simpl.
    rewrite (chunk_text_short_text_any p 900 120 fuel);
      [ | split; [apply truthy_true_len, normalize_nonblank; exact Hb | exact Hl]
        | exact Hf].
    simpl. rewrite (IH (acc ++ [normalize p]) Hf Hps).
    rewrite <- app_assoc. reflexivity.
Qed.

(** X16.  A page whose sections (the parts between blank lines) all have
    at most 900 characters once normalised gives one chunk per section that
    is not blank: that section stripped and without carriage returns, in
    page order, appended to the chunks collected so far. *)
Theorem add_page_one_chunk_per_section :
  forall fuel raw all_chunks,
    (0 < fuel)%nat ->
    Forall (fun p => len (normalize p) <= 900) (rough_parts raw) ->
    add_page fuel (Some raw) all_chunks
    = Returned (all_chunks ++ List.map normalize (rough_parts raw)).
Proof.
  intros fuel raw acc Hf H. unfold add_page. rewrite raw_text_some.
  apply extend_parts_short; [exact Hf|].
  apply Forall_forall. intros p Hp. split.
  - unfold rough_parts in Hp. apply filter_In in Hp. destruct Hp as [_ Hp].
    apply nonblank_iff. exact Hp.
  - rewrite Forall_forall in H. apply H. exact Hp.
Qed.

Lemma add_page_one_chunk_per_section_witness :
  add_page 1
    (Some (str_of "Alpha text about pricing." ++ [LF; LF] ++ str_of "  "
           ++ [LF; LF] ++ str_of " Beta text about refunds." ++ [CR; LF]))
    []
  = Returned [str_of "Alpha text about pricing.";
              str_of "Beta text about refunds."].
Proof.
  apply (add_page_one_chunk_per_section 1
           (str_of "Alpha text about pricing." ++ [LF; LF] ++ str_of "  "
            ++ [LF; LF] ++ str_of " Beta text about refunds." ++ [CR; LF]) []);
    [lia|].
  repeat constructor; unfold len; simpl; lia.
Defined.

(** ** retrieve: k beyond the corpus (C3) *)

(** C3 (defect of the code).  The claim asks for exactly the [N] stored
    entries when [k > N].  On an index with one row per chunk and
    [k > N >= 1], whatever search meets the contract, [retrieve] returns
    [k] entries, not [N]: the scores are the [k] scores of the search in
    order, the first [N] texts are the chunks the search found, and each of
    the [k - N] remaining texts is the last chunk, read by [chunks[i]] for
    the label [-1] of an unfilled slot. *)
Theorem retrieve_pads_instead_of_truncating :
  forall (vec score : Type) (encode : str -> vec)
         (search : list vec -> vec -> Z -> result (list score * list Z)),
    search_contract search ->
    forall (rows : list vec) (chunks : list str) query k,
      len rows = len chunks -> chunks <> [] -> len chunks < k ->
      exists D hits top,
        search rows (encode query) k
        = Returned (D, hits ++ repeat (-1) (Z.to_nat (k - len chunks))) /\
        retrieve encode search (Some rows) chunks query k = Returned top /\
        len top = k /\ len top <> len chunks /\
        List.map snd top = D /\
        map_result (py_index chunks) hits
        = Returned (firstn (List.length chunks) (List.map fst top)) /\
        skipn (List.length chunks) (List.map fst top)
        = repeat (last chunks []) (Z.to_nat (k - len chunks)).
Proof.
  intros vec score encode search [_ Hpos] rows chunks query k Hrows Hne Hk.
  assert (Hn : 0 <= len chunks) by (unfold len; lia).
  destruct (Hpos rows (encode query) k) as [D [hits [Hs [HD [Hh Hv]]]]]; [lia|].
  rewrite Hrows in Hs.
  assert (Hhits : exists ctxs,
             map_result (py_index chunks) hits = Returned ctxs).
  { destruct (map_result_returns chunks hits) as [ctxs [Hm _]]; [|eauto].
    eapply Forall_impl; [|exact Hv]. intros i Hi. cbv beta in Hi.
    apply py_index_valid. lia. }
  destruct Hhits as [ctxs Hctxs].
  pose proof (map_result_length _ _ _ _ _ Hctxs) as Hcl.
  pose proof (map_result_repeat _ _ (py_index chunks) (-1) _
                (Z.to_nat (k - len chunks))
                (py_index_minus_one_last chunks Hne)) as Hpad.
  pose proof (map_result_app _ _ _ _ _ _ _ Hctxs Hpad) as Hall.
  assert (Hcn : List.length ctxs = List.length chunks)
    by (unfold len in *; lia).
  assert (Hlen : List.length
                   (ctxs ++ repeat (last chunks []) (Z.to_nat (k - len chunks)))
                 = List.length D).
  { rewrite length_app, repeat_length. unfold len in *. lia. }
  exists D, hits,
    (combine (ctxs ++ repeat (last chunks []) (Z.to_nat (k - len chunks))) D).
  rewrite combine_fst, combine_snd by exact Hlen.
  split; [exact Hs|]. split; [|split; [|split; [|split; [|split]]]].
  - unfold retrieve. rewrite Hs. simpl. rewrite Hall. reflexivity.
  - unfold len in *. rewrite length_combine. lia.
  - unfold len in *. rewrite length_combine. lia.
  - reflexivity.
  - rewrite <- Hcn, firstn_app, firstn_all, Nat.sub_diag. simpl.
    rewrite app_nil_r. exact Hctxs.
  - rewrite <- Hcn, skipn_app, skipn_all, Nat.sub_diag. reflexivity.
Qed.

Lemma retrieve_pads_instead_of_truncating_witness :
  let chunks := [str_of "Alpha text about pricing.";
                 str_of "Beta text about refunds."] in
  exists top,
    retrieve Flat.encode Flat.search (Some (List.map Flat.encode chunks))
             chunks (str_of "refund policy") 5 = Returned top /\
    len top = 5 /\ len top <> len chunks /\
    skipn 2 (List.map fst top) = repeat (str_of "Beta text about refunds.") 3.
Proof.
  cbv zeta.
  destruct (retrieve_pads_instead_of_truncating _ _ Flat.encode Flat.search
              flat_search_contract
              (List.map Flat.encode [str_of "Alpha text about pricing.";
                                     str_of "Beta text about refunds."])
              [str_of "Alpha text about pricing.";
               str_of "Beta text about refunds."]
              (str_of "refund policy") 5)
    as [D [hits [top [_ [Ht [Hl [Hd [_ [_ Hs]]]]]]]]];
    [reflexivity | discriminate | unfold len; simpl; lia|].
  exists top. split; [exact Ht|]. split; [exact Hl|]. split; [exact Hd|].
  exact Hs.
Defined.
